(** * notify: the poke lifecycle engine

    A shallow embedding of package [notify] (type.go, storage.go and the
    tunnels file) together with the small part of the document store and of
    the delivery providers that the package programs against.

    - Instants ([time.Time]) are integers: nanoseconds on the wall clock,
      counted from Go's zero instant.
    - A stored document is a finite map from field names to values, the
      database a finite map from document references to documents.
    - Every remote call may fail; the failures of a run are scripted in the
      world ([faults]), one entry per call, so that a failure can be injected
      at any step of any operation.
    - Go's [(value, error)] results are [result]s or pairs with an
      [option error], whichever the function really returns. *)

From Stdlib Require Import ZArith.
From stdpp Require Import gmap strings list fin_maps sorting pretty.

Set Default Proof Using "Type".

(** ** Instants *)

Definition Time : Type := Z.
Bind Scope Z_scope with Time.

Definition zeroTime : Time := 0%Z.

(** [t.After(u)]: whether the instant [t] is after [u]. *)
Definition After (t u : Time) : bool := (u <? t)%Z.

(** ** Errors *)

(** The status codes of the store's remote calls that the package can see. *)
Inductive Code : Type :=
| NotFound
| AlreadyExists
| Aborted
| Unavailable
| DeadlineExceeded
| Internal.

Global Instance Code_eq_dec : EqDecision Code.
Proof. solve_decision. Defined.

Definition Code_name (c : Code) : string :=
  match c with
  | NotFound => "NotFound"
  | AlreadyExists => "AlreadyExists"
  | Aborted => "Aborted"
  | Unavailable => "Unavailable"
  | DeadlineExceeded => "DeadlineExceeded"
  | Internal => "Internal"
  end.

(** Go's [error] values, as far as the package makes or meets them.
    [firePokeStoreErr] is the struct of storage.go with its three fields. *)
Inductive error : Type :=
| StatusErr (c : Code) (desc : string)
| DecodeErr (field : string)
| ReadAfterWrite
| Errorf (msg : string)
| ApiError (message : string)
| firePokeStoreErr (storeErr : error) (errFunc where_ : string).

Global Instance error_eq_dec : EqDecision error.
Proof. solve_decision. Defined.

Definition storeType : string := "firepokestore".

(** [Error()]: the message of an error; for [firePokeStoreErr] it is
    [fmt.Sprintf("%s %s: %v at %s", storeType, errFunc, storeErr, where)]. *)
Fixpoint Error (e : error) : string :=
  match e with
  | StatusErr c desc =>
      "rpc error: code = " +:+ Code_name c +:+ " desc = " +:+ desc
  | DecodeErr f => "firestore: cannot set field " +:+ f
  | ReadAfterWrite => "firestore: read after write in transaction"
  | Errorf msg => msg
  | ApiError m => "googleapi: " +:+ m
  | firePokeStoreErr cause f w =>
      storeType +:+ " " +:+ f +:+ ": " +:+ Error cause +:+ " at " +:+ w
  end.

(** Whether an error is the store's wrapper, and what it wraps. *)
Definition is_firePokeStoreErr (e : error) : bool :=
  match e with
  | firePokeStoreErr _ _ _ => true
  | _ => false
  end.

Definition hasCode (c : Code) (e : error) : bool :=
  match e with
  | StatusErr c' _ => bool_decide (c' = c)
  | _ => false
  end.

Inductive result (A : Type) : Type :=
| Ok (a : A)
| Err (e : error).
Arguments Ok {A} a.
Arguments Err {A} e.

(** ** type.go *)

Definition TypeSMS : string := "sms".
Definition TypeEmail : string := "email".
Definition TypeVoice : string := "voice".

Definition StatusQueued : string := "Queued".
Definition StatusDelivered : string := "Delivered".
Definition StatusUndelivered : string := "Undelievered".
Definition StatusFailed : string := "Failed".
Definition StatusError : string := "Error".

(** The five status constants of type.go. *)
Definition statusVocabulary : list string :=
  [StatusQueued; StatusDelivered; StatusUndelivered; StatusFailed; StatusError].

Record Poke : Type := mkPoke {
  Poke_ID : string;
  Poke_Tunnel : string;
  Poke_To : string;
  Poke_Subject : string;
  Poke_Body : string;
  Poke_DateToSend : Time;
  Poke_Expiry : Time
}.

Record ArchivedPoke : Type := mkArchivedPoke {
  Arc_ID : string;
  Arc_Tunnel : string;
  Arc_To : string;
  Arc_Expired : bool
}.

Record Record_ : Type := mkRecord {
  Rec_MessageID : string;
  Rec_ID : string;
  Rec_Status : string;
  Rec_TimeStamp : Time
}.

Global Instance Poke_eq_dec : EqDecision Poke.
Proof. solve_decision. Defined.
Global Instance ArchivedPoke_eq_dec : EqDecision ArchivedPoke.
Proof. solve_decision. Defined.
Global Instance Record_eq_dec : EqDecision Record_.
Proof. solve_decision. Defined.

(** Go's zero values, [new(Poke)], [new(ArchivedPoke)] and [Record{}]. *)
Definition zeroPoke : Poke := mkPoke "" "" "" "" "" zeroTime zeroTime.
Definition zeroArchivedPoke : ArchivedPoke := mkArchivedPoke "" "" "" false.
Definition zeroRecord : Record_ := mkRecord "" "" "" zeroTime.

(** [p.ID = id] and [r.ID = id]. *)
Definition Poke_setID (id : string) (p : Poke) : Poke :=
  mkPoke id (Poke_Tunnel p) (Poke_To p) (Poke_Subject p) (Poke_Body p)
         (Poke_DateToSend p) (Poke_Expiry p).

Definition Rec_setID (id : string) (r : Record_) : Record_ :=
  mkRecord (Rec_MessageID r) id (Rec_Status r) (Rec_TimeStamp r).

(** ** Documents

    The struct tags of type.go decide what is stored: the [ID] fields carry
    [firestore:"-"] and are never written, [subject] is omitted when empty. *)

Inductive Value : Type :=
| VString (s : string)
| VTime (t : Time)
| VBool (b : bool).

Global Instance Value_eq_dec : EqDecision Value.
Proof. solve_decision. Defined.

Abbreviation Doc := (gmap string Value).

Definition Poke_toDoc (p : Poke) : Doc :=
  let d : Doc :=
    <["tunnel" := VString (Poke_Tunnel p)]>
    (<["to" := VString (Poke_To p)]>
    (<["body" := VString (Poke_Body p)]>
    (<["date_to_send" := VTime (Poke_DateToSend p)]>
    (<["expiry" := VTime (Poke_Expiry p)]> ∅)))) in
  if decide (Poke_Subject p = "") then d
  else <["subject" := VString (Poke_Subject p)]> d.

Definition ArchivedPoke_toDoc (a : ArchivedPoke) : Doc :=
  <["tunnel" := VString (Arc_Tunnel a)]>
  (<["to" := VString (Arc_To a)]>
  (<["expired" := VBool (Arc_Expired a)]> ∅)).

Definition Record_toDoc (r : Record_) : Doc :=
  <["message_id" := VString (Rec_MessageID r)]>
  (<["status" := VString (Rec_Status r)]>
  (<["timestamp" := VTime (Rec_TimeStamp r)]> ∅)).

(** Reading a field into a struct field of the given Go type: an absent
    field leaves the zero value, a value of another type is an error. *)
Definition stringField (d : Doc) (k : string) : result string :=
  match d !! k with
  | None => Ok ""
  | Some (VString s) => Ok s
  | Some _ => Err (DecodeErr k)
  end.

Definition timeField (d : Doc) (k : string) : result Time :=
  match d !! k with
  | None => Ok zeroTime
  | Some (VTime t) => Ok t
  | Some _ => Err (DecodeErr k)
  end.

Definition boolField (d : Doc) (k : string) : result bool :=
  match d !! k with
  | None => Ok false
  | Some (VBool b) => Ok b
  | Some _ => Err (DecodeErr k)
  end.

Definition rbind {A B : Type} (r : result A) (k : A → result B) : result B :=
  match r with
  | Ok a => k a
  | Err e => Err e
  end.

(** [snapshot.DataTo(p)] for [p = new(Poke)] and for [new(Record)]. *)
Definition DataTo_Poke (d : Doc) : result Poke :=
  rbind (stringField d "tunnel") (λ tunnel,
  rbind (stringField d "to") (λ to,
  rbind (stringField d "subject") (λ subject,
  rbind (stringField d "body") (λ body,
  rbind (timeField d "date_to_send") (λ date,
  rbind (timeField d "expiry") (λ expiry,
  Ok (mkPoke "" tunnel to subject body date expiry))))))).

Definition DataTo_Record (d : Doc) : result Record_ :=
  rbind (stringField d "message_id") (λ mid,
  rbind (stringField d "status") (λ status,
  rbind (timeField d "timestamp") (λ ts,
  Ok (mkRecord mid "" status ts)))).

(** ** The store's backend and the world outside the package

    A document reference is a collection path and a document id. *)

Abbreviation DocumentRef := (string * string)%type.

Abbreviation Database := (gmap (string * string) Doc).

(** [col.Doc(id)]. *)
Definition Doc_ (col id : string) : DocumentRef := (col, id).

Record DocumentSnapshot : Type := mkSnapshot {
  Ref : DocumentRef;
  fields : Doc
}.

Record World : Type := mkWorld {
  db : Database;                  (* the committed documents *)
  faults : list (option error);   (* outcome of the next remote calls *)
  clock : Time;                   (* what time.Now() reads *)
  idgen : nat → string;           (* the client's document id generator *)
  idctr : nat;
  stderr : list string            (* what was written to os.Stderr *)
}.

Definition set_db (d : Database) (w : World) : World :=
  mkWorld d (faults w) (clock w) (idgen w) (idctr w) (stderr w).
Definition set_faults (f : list (option error)) (w : World) : World :=
  mkWorld (db w) f (clock w) (idgen w) (idctr w) (stderr w).
Definition set_clock (t : Time) (w : World) : World :=
  mkWorld (db w) (faults w) t (idgen w) (idctr w) (stderr w).
Definition set_idctr (n : nat) (w : World) : World :=
  mkWorld (db w) (faults w) (clock w) (idgen w) n (stderr w).
Definition set_stderr (s : list string) (w : World) : World :=
  mkWorld (db w) (faults w) (clock w) (idgen w) (idctr w) s.

(** One remote call: it fails when the script says so. *)
Definition rpc (w : World) : option error * World :=
  match faults w with
  | [] => (None, w)
  | f :: fs => (f, set_faults fs w)
  end.

(** [col.NewDoc()]: a reference with a freshly generated id. *)
Definition NewDoc (col : string) (w : World) : DocumentRef * World :=
  (Doc_ col (idgen w (idctr w)), set_idctr (S (idctr w)) w).

(** [fmt.Fprintf(os.Stderr, "%s", err)]. *)
Definition Fprintf_Stderr (e : error) (w : World) : World :=
  set_stderr (stderr w ++ [Error e]) w.

Inductive Write : Type :=
| WCreate (r : DocumentRef) (d : Doc)   (* precondition: r does not exist *)
| WSet (r : DocumentRef) (d : Doc)
| WDelete (r : DocumentRef).

Definition notFound (r : DocumentRef) : error :=
  StatusErr NotFound (r.1 +:+ "/" +:+ r.2 +:+ " not found").

Definition alreadyExists (r : DocumentRef) : error :=
  StatusErr AlreadyExists (r.1 +:+ "/" +:+ r.2 +:+ " already exists").

Definition applyWrite (d : Database) (w : Write) : result Database :=
  match w with
  | WCreate r doc =>
      match d !! r with
      | Some _ => Err (alreadyExists r)
      | None => Ok (<[r := doc]> d)
      end
  | WSet r doc => Ok (<[r := doc]> d)
  | WDelete r => Ok (delete r d)
  end.

Fixpoint applyWrites (d : Database) (ws : list Write) : result Database :=
  match ws with
  | [] => Ok d
  | w :: ws' => rbind (applyWrite d w) (λ d', applyWrites d' ws')
  end.

(** The Commit call: all the writes are applied, or none is. *)
Definition Commit (ws : list Write) (w : World) : option error * World :=
  match rpc w with
  | (Some e, w1) => (Some e, w1)
  | (None, w1) =>
      match applyWrites (db w1) ws with
      | Ok d => (None, set_db d w1)
      | Err e => (Some e, w1)
      end
  end.

(** [ref.Get(ctx)] outside a transaction. *)
Definition DocumentRef_Get (r : DocumentRef) (w : World)
  : result DocumentSnapshot * World :=
  match rpc w with
  | (Some e, w1) => (Err e, w1)
  | (None, w1) =>
      match db w1 !! r with
      | Some d => (Ok (mkSnapshot r d), w1)
      | None => (Err (notFound r), w1)
      end
  end.

(** [col.Add(ctx, data)]: a new reference, then a Create of it. *)
Definition CollectionRef_Add (col : string) (data : Doc) (w : World)
  : result DocumentRef * World :=
  let '(r, w1) := NewDoc col w in
  match Commit [WCreate r data] w1 with
  | (Some e, w2) => (Err e, w2)
  | (None, w2) => (Ok r, w2)
  end.

(** ** A state and error monad for the bodies of operations *)

Definition M (S A : Type) : Type := S → result A * S.

Definition ret {S A : Type} (a : A) : M S A := λ s, (Ok a, s).

Definition fail {S A : Type} (e : error) : M S A := λ s, (Err e, s).

Definition bind {S A B : Type} (m : M S A) (k : A → M S B) : M S B :=
  λ s, match m s with
       | (Ok a, s') => k a s'
       | (Err e, s') => (Err e, s')
       end.

Definition lift {S A : Type} (r : result A) : M S A := λ s, (r, s).

Global Instance M_ret {S : Type} : MRet (M S) := λ A, ret.
Global Instance M_bind {S : Type} : MBind (M S) := λ A B k m, bind m k.

(** ** Transactions

    The state of a running transaction function: the variables of the
    enclosing Go function that the closure assigns ([locals]), the writes
    buffered so far, and the world. *)

Record TxS (L : Type) : Type := mkTxS {
  tx_locals : L;
  tx_writes : list Write;
  tx_world : World
}.
Arguments mkTxS {L} _ _ _.
Arguments tx_locals {L} _.
Arguments tx_writes {L} _.
Arguments tx_world {L} _.

Section Transaction.
Context {L : Type}.

(** [tx.Get(ref)]: a remote read; a missing document is a NotFound error,
    and a read after a write is refused. *)
Definition tx_Get (r : DocumentRef) : M (TxS L) DocumentSnapshot :=
  λ s,
    match tx_writes s with
    | _ :: _ => (Err ReadAfterWrite, s)
    | [] =>
        match rpc (tx_world s) with
        | (Some e, w1) => (Err e, mkTxS (tx_locals s) (tx_writes s) w1)
        | (None, w1) =>
            let s1 := mkTxS (tx_locals s) (tx_writes s) w1 in
            match db w1 !! r with
            | Some d => (Ok (mkSnapshot r d), s1)
            | None => (Err (notFound r), s1)
            end
        end
    end.

Definition tx_addWrite (wr : Write) : M (TxS L) () :=
  λ s, (Ok (), mkTxS (tx_locals s) (tx_writes s ++ [wr]) (tx_world s)).

(** [tx.Create], [tx.Set], [tx.Delete]: buffered until the commit. *)
Definition tx_Create (r : DocumentRef) (d : Doc) : M (TxS L) () :=
  tx_addWrite (WCreate r d).
Definition tx_Set (r : DocumentRef) (d : Doc) : M (TxS L) () :=
  tx_addWrite (WSet r d).
Definition tx_Delete (r : DocumentRef) : M (TxS L) () :=
  tx_addWrite (WDelete r).

(** Assignment to a variable of the enclosing function. *)
Definition assign (l : L) : M (TxS L) () :=
  λ s, (Ok (), mkTxS l (tx_writes s) (tx_world s)).

(** An effect on the world from inside the transaction function. *)
Definition inWorld {A : Type} (f : World → A * World) : M (TxS L) A :=
  λ s, let '(a, w1) := f (tx_world s) in
       (Ok a, mkTxS (tx_locals s) (tx_writes s) w1).

(** [client.RunTransaction(ctx, f)]: begin, run [f], commit. An error of
    [f] rolls back and is returned; an Aborted commit runs [f] again, up to
    the attempt limit; every other commit outcome is returned. *)
Fixpoint runAttempts (n : nat) (f : M (TxS L) ()) (last : option error)
         (l : L) (w : World) : option error * L * World :=
  match n with
  | O => (last, l, w)
  | S n' =>
      match rpc w with
      | (Some e, w1) => (Some e, l, w1)
      | (None, w1) =>
          match f (mkTxS l [] w1) with
          | (Err e, s) => (Some e, tx_locals s, tx_world s)
          | (Ok _, s) =>
              match Commit (tx_writes s) (tx_world s) with
              | (None, w2) => (None, tx_locals s, w2)
              | (Some e, w2) =>
                  if hasCode Aborted e
                  then runAttempts n' f (Some e) (tx_locals s) w2
                  else (Some e, tx_locals s, w2)
              end
          end
      end
  end.

Definition DefaultTransactionMaxAttempts : nat := 5.

Definition RunTransaction (f : M (TxS L) ()) (l : L) (w : World)
  : option error * L * World :=
  runAttempts DefaultTransactionMaxAttempts f None l w.

End Transaction.

(** [time.Now()]. *)
Definition time_Now (w : World) : Time * World := (clock w, w).

(** ** Queries: one field filter, the backend's order, a limit *)

Inductive Op : Type :=
| OpLt   (* "<" *)
| OpEq.  (* "=" *)

Record Query : Type := mkQuery {
  q_col : string;
  q_field : string;
  q_op : Op;
  q_value : Value;
  q_limit : option nat
}.

(** [col.Where(field, op, value)] and [q.Limit(n)]. *)
Definition Where (col field : string) (op : Op) (v : Value) : Query :=
  mkQuery col field op v None.

Definition Limit (n : nat) (q : Query) : Query :=
  mkQuery (q_col q) (q_field q) (q_op q) (q_value q) (Some n).

(** Values compare within their own type only. *)
Definition Value_ltb (a b : Value) : bool :=
  match a, b with
  | VTime x, VTime y => (x <? y)%Z
  | VString x, VString y => String.ltb x y
  | VBool x, VBool y => negb x && y
  | _, _ => false
  end.

(** A document matches when it has the field and the comparison holds. *)
Definition matches (q : Query) (d : Doc) : bool :=
  match d !! q_field q with
  | None => false
  | Some v =>
      match q_op q with
      | OpLt => Value_ltb v (q_value q)
      | OpEq => bool_decide (v = q_value q)
      end
  end.

Definition selects (q : Query) (x : DocumentRef * Doc) : Prop :=
  x.1.1 = q_col q ∧ matches q x.2 = true.

Global Instance selects_dec q x : Decision (selects q x).
Proof. unfold selects. apply _. Defined.

(** Results come ordered by the filtered field when the filter is an
    inequality, and by document id after that. *)
Definition before (q : Query) (a b : DocumentRef * Doc) : Prop :=
  Is_true
    match q_op q, a.2 !! q_field q, b.2 !! q_field q with
    | OpLt, Some x, Some y =>
        Value_ltb x y || (bool_decide (x = y) && String.leb a.1.2 b.1.2)
    | _, _, _ => String.leb a.1.2 b.1.2
    end.

Global Instance before_dec q a b : Decision (before q a b).
Proof. unfold before. apply _. Defined.

Definition cut {A : Type} (lim : option nat) (l : list A) : list A :=
  match lim with
  | Some n => take n l
  | None => l
  end.

Definition runQuery (q : Query) (d : Database) : list DocumentSnapshot :=
  (λ x, mkSnapshot x.1 x.2) <$>
    cut (q_limit q) (merge_sort (before q) (filter (selects q) (map_to_list d))).

(** [q.Documents(ctx).GetAll()]. *)
Definition GetAll (q : Query) (w : World)
  : result (list DocumentSnapshot) * World :=
  match rpc w with
  | (Some e, w1) => (Err e, w1)
  | (None, w1) => (Ok (runQuery q (db w1)), w1)
  end.

(** ** storage.go *)

Record firePokeStore : Type := mkStore {
  pokeCol : string;
  recCol : string;
  archiveCol : string
}.

(** The client handle; [None] is Go's nil pointer. *)
Inductive Client : Type := FirestoreClient.

Definition NewFirePokeStore (c : option Client) (pokeCol recCol arcCol : string)
  : result firePokeStore :=
  match c with
  | None => Err (firePokeStoreErr (Errorf "not created") "newfirepokestore"
                                  "initialize")
  | Some _ => Ok (mkStore pokeCol recCol arcCol)
  end.

(** [strings.Join(IDs, ",")]. *)
Definition Join (ids : list string) (sep : string) : string :=
  String.concat sep ids.

Section Store.
Variable s : firePokeStore.

Definition Create (p : Poke) (w : World) : result Poke * World :=
  match CollectionRef_Add (pokeCol s) (Poke_toDoc p) w with
  | (Err err, w1) => (Err (firePokeStoreErr err "create" (Poke_ID p)), w1)
  | (Ok docRef, w1) => (Ok (Poke_setID docRef.2 p), w1)
  end.

(** The loop of [Delete] and of [DeleteArchived] inside the transaction. *)
Fixpoint deleteAll (col : string) (IDs : list string) : M (TxS ()) () :=
  match IDs with
  | [] => mret ()
  | id :: rest => tx_Delete (Doc_ col id);; deleteAll col rest
  end.

Definition Delete (IDs : list string) (w : World) : option error * World :=
  match RunTransaction (deleteAll (pokeCol s) IDs) () w with
  | (Some err, _, w1) => (Some (firePokeStoreErr err "delete" (Join IDs ",")), w1)
  | (None, _, w1) => (None, w1)
  end.

Definition Update_tx (p : Poke) : M (TxS ()) () :=
  let ref := Doc_ (pokeCol s) (Poke_ID p) in
  _ ← tx_Get ref;
  tx_Set ref (Poke_toDoc p).

Definition Update (p : Poke) (w : World) : result Poke * World :=
  match RunTransaction (Update_tx p) () w with
  | (Some err, _, w1) => (Err (firePokeStoreErr err "update" (Poke_ID p)), w1)
  | (None, _, w1) => (Ok p, w1)
  end.

Fixpoint Get_loop (IDs rest : list string) (pokes : list Poke) (w : World)
  : result (list Poke) * World :=
  match rest with
  | [] => (Ok pokes, w)
  | id :: rest' =>
      match DocumentRef_Get (Doc_ (pokeCol s) id) w with
      | (Err err, w1) => (Err (firePokeStoreErr err "get" (Join IDs ",")), w1)
      | (Ok d, w1) =>
          match DataTo_Poke (fields d) with
          | Err err =>
              (Err (firePokeStoreErr err "get" ("marshaling " +:+ id)), w1)
          | Ok p => Get_loop IDs rest' (pokes ++ [Poke_setID (Ref d).2 p]) w1
          end
      end
  end.

Definition Get (IDs : list string) (w : World) : result (list Poke) * World :=
  Get_loop IDs IDs [] w.

(** The decoding loop shared by [ListToSend] and [ListExpired]. *)
Fixpoint decodePokes (errFunc : string) (docs : list DocumentSnapshot)
         (pokes : list Poke) : result (list Poke) :=
  match docs with
  | [] => Ok pokes
  | doc :: rest =>
      match DataTo_Poke (fields doc) with
      | Err err => Err (firePokeStoreErr err errFunc (Ref doc).2)
      | Ok p => decodePokes errFunc rest (pokes ++ [Poke_setID (Ref doc).2 p])
      end
  end.

Definition ListToSend (w : World) : result (list Poke) * World :=
  let '(now, w0) := time_Now w in
  let q := Where (pokeCol s) "date_to_send" OpLt (VTime now) in
  let q := Limit 1000 q in
  match GetAll q w0 with
  | (Err err, w1) => (Err (firePokeStoreErr err "list_to_send" ""), w1)
  | (Ok docs, w1) => (decodePokes "list_to_send" docs [], w1)
  end.

Definition ListExpired (w : World) : result (list Poke) * World :=
  let '(now, w0) := time_Now w in
  let q := Where (pokeCol s) "expiry" OpLt (VTime now) in
  let q := Limit 1000 q in
  match GetAll q w0 with
  | (Err err, w1) => (Err (firePokeStoreErr err "list_expired" ""), w1)
  | (Ok docs, w1) => (decodePokes "list_expired" docs [], w1)
  end.

Definition CreateRecord (r : Record_) (w : World) : result Record_ * World :=
  match CollectionRef_Add (recCol s) (Record_toDoc r) w with
  | (Err err, w1) => (Err err, w1)
  | (Ok ref, w1) => (Ok (Rec_setID ref.2 r), w1)
  end.

Fixpoint decodeRecords (docs : list DocumentSnapshot) (r : list Record_)
  : result (list Record_) :=
  match docs with
  | [] => Ok r
  | d :: rest =>
      match DataTo_Record (fields d) with
      | Err err =>
          Err (firePokeStoreErr err "GetRecord"
                 ("unmarshal message ID = " +:+ (Ref d).2))
      | Ok rec => decodeRecords rest (r ++ [Rec_setID (Ref d).2 rec])
      end
  end.

Definition GetRecord (messageID : string) (w : World)
  : result (list Record_) * World :=
  let q := Where (recCol s) "message_id" OpEq (VString messageID) in
  match GetAll q w with
  | (Err err, w1) => (Err (firePokeStoreErr err "GetRecord" messageID), w1)
  | (Ok docs, w1) => (decodeRecords docs [], w1)
  end.

(** The transaction function of [Archive]; [a] is the variable of the
    enclosing function, [t] the instant read before the transaction. *)
Definition Archive_tx (pokeRef arcRef : DocumentRef) (t : Time)
  : M (TxS ArchivedPoke) () :=
  psnap ← tx_Get pokeRef;
  p ← lift (DataTo_Poke (fields psnap));
  let p := Poke_setID (Ref psnap).2 p in
  let a := mkArchivedPoke "" (Poke_Tunnel p) (Poke_To p)
                          (After t (Poke_Expiry p)) in
  assign a;;
  tx_Create arcRef (ArchivedPoke_toDoc a);;
  tx_Delete pokeRef.

Definition Archive (id : string) (w : World) : result ArchivedPoke * World :=
  let pokeRef := Doc_ (pokeCol s) id in
  let arcRef := Doc_ (archiveCol s) id in
  let a := zeroArchivedPoke in
  let '(t, w0) := time_Now w in
  match RunTransaction (Archive_tx pokeRef arcRef t) a w0 with
  | (Some err, _, w1) => (Err (firePokeStoreErr err "archive" id), w1)
  | (None, a, w1) => (Ok a, w1)
  end.

Definition DeleteArchived (IDs : list string) (w : World)
  : option error * World :=
  match RunTransaction (deleteAll (archiveCol s) IDs) () w with
  | (Some err, _, w1) =>
      (Some (firePokeStoreErr err "delete archived" (Join IDs ",")), w1)
  | (None, _, w1) => (None, w1)
  end.

End Store.

(** ** The tunnels *)

Definition Rec_setMessageID (m : string) (r : Record_) : Record_ :=
  mkRecord m (Rec_ID r) (Rec_Status r) (Rec_TimeStamp r).
Definition Rec_setStatus (st : string) (r : Record_) : Record_ :=
  mkRecord (Rec_MessageID r) (Rec_ID r) st (Rec_TimeStamp r).
Definition Rec_setTimeStamp (t : Time) (r : Record_) : Record_ :=
  mkRecord (Rec_MessageID r) (Rec_ID r) (Rec_Status r) t.

(** The [Tunnel] interface of type.go. *)
Class Tunnel (T : Type) : Type := {
  describe : T → string;
  Type_ : T → string;
  ID : T → string;
  Send : T → Poke → World → (Record_ * option error) * World
}.

(** *** The SMS provider's client

    A response carries the provider's status string and its update date,
    which [DateUpdateAsTime] parses; an exception carries the provider's
    codes and texts. *)
Record SmsResponse : Type := mkSmsResponse {
  sms_Status : string;
  sms_DateUpdate : string;
  sms_DateUpdateAsTime : result Time
}.

Record Exception : Type := mkException {
  ex_Status : Z;
  ex_Message : string;
  ex_Code : Z;
  ex_MoreInfo : string
}.

(** What [SendSMS] returns is a triple [(resp, ex, err)]; [Send] looks at
    [err] first, then at [ex], and only then at [resp], which the client
    always sets when the other two are nil. *)
Inductive SmsReply : Type :=
| SmsErr (err : error)
| SmsException (ex : Exception)
| SmsResp (resp : SmsResponse).

Record Twilio : Type := mkTwilio {
  AccountSid : string;
  SendSMS : string → string → string → string → string → SmsReply
}.

Record SMSTunnel : Type := mkSMSTunnel {
  sms_c : Twilio;
  sms_id : string
}.

Definition SMSTunnel_Type (_ : SMSTunnel) : string := TypeSMS.
Definition SMSTunnel_ID (t : SMSTunnel) : string := sms_id t.
Definition SMSTunnel_describe (t : SMSTunnel) : string :=
  "service/" +:+ "notify" +:+ "/tunnel/" +:+ SMSTunnel_Type t
             +:+ "/id/" +:+ SMSTunnel_ID t.

(** [fmt.Errorf("twilio exception: %#v", ex)]. *)
Definition twilioException (ex : Exception) : error :=
  Errorf ("twilio exception: &gotwilio.Exception{Status:" +:+ pretty (ex_Status ex)
          +:+ ", Message:" +:+ ex_Message ex
          +:+ ", Code:" +:+ pretty (ex_Code ex)
          +:+ ", MoreInfo:" +:+ ex_MoreInfo ex +:+ "}").

Definition SMSTunnel_Send (t : SMSTunnel) (p : Poke) (w : World)
  : (Record_ * option error) * World :=
  let rec := zeroRecord in
  let rec := Rec_setMessageID (Poke_ID p) rec in
  let callbackURL := "" in
  match SendSMS (sms_c t) (SMSTunnel_ID t) (Poke_To p) (Poke_Body p)
                callbackURL (AccountSid (sms_c t)) with
  | SmsErr err =>
      let '(now, w1) := time_Now w in
      let rec := Rec_setTimeStamp now rec in
      let rec := Rec_setStatus StatusError rec in
      ((rec, Some err), w1)
  | SmsException ex =>
      let '(now, w1) := time_Now w in
      let rec := Rec_setTimeStamp now rec in
      let rec := Rec_setStatus (ex_MoreInfo ex) rec in
      ((rec, Some (twilioException ex)), w1)
  | SmsResp resp =>
      match sms_DateUpdateAsTime resp with
      | Err err =>
          let '(tm, w1) := time_Now w in
          let rec := Rec_setTimeStamp tm rec in
          let rec := Rec_setStatus (sms_Status resp) rec in
          ((rec, Some err), w1)
      | Ok tm =>
          let rec := Rec_setTimeStamp tm rec in
          let rec := Rec_setStatus (sms_Status resp) rec in
          ((rec, None), w)
      end
  end.

Global Instance SMSTunnel_Tunnel : Tunnel SMSTunnel :=
  {| describe := SMSTunnel_describe;
     Type_ := SMSTunnel_Type;
     ID := SMSTunnel_ID;
     Send := SMSTunnel_Send |}.

(** *** The mail provider's service

    [gm_Send user raw] is [svc.Users.Messages.Send(user, msg).Do()]. *)
Record GmailService : Type := mkGmailService {
  gm_Send : string → string → option error
}.

Record GMailTunnel : Type := mkGMailTunnel {
  gm_email : string;
  gm_svc : option GmailService
}.

Section Mail.
(** The mail composer ([msg.Bytes()] for a message with one recipient, a
    subject and a text) and [base64.URLEncoding.EncodeToString]. *)
Variable Email_Bytes : string → string → string → result string.
Variable EncodeToString : string → string.

Definition GMailTunnel_Type (_ : GMailTunnel) : string := TypeEmail.
Definition GMailTunnel_ID (t : GMailTunnel) : string := gm_email t.
Definition GMailTunnel_describe (t : GMailTunnel) : string :=
  "service/" +:+ "notify" +:+ "/tunnel/" +:+ GMailTunnel_Type t
             +:+ "/id/" +:+ GMailTunnel_ID t.

Definition GMailTunnel_Send (t : GMailTunnel) (p : Poke) (w : World)
  : (Record_ * option error) * World :=
  let rec := Rec_setMessageID (Poke_ID p) zeroRecord in
  match Email_Bytes (Poke_To p) (Poke_Subject p) (Poke_Body p) with
  | Err err =>
      let rec := Rec_setStatus StatusError rec in
      let '(now, w1) := time_Now w in
      let rec := Rec_setTimeStamp now rec in
      ((rec, Some err), w1)
  | Ok rawBs =>
      let raw := EncodeToString rawBs in
      match gm_svc t with
      | None =>
          let '(now, w1) := time_Now w in
          let rec := Rec_setTimeStamp now rec in
          let rec := Rec_setStatus StatusError rec in
          ((rec, Some (Errorf "could not get gmail service:  got `nil`  ")), w1)
      | Some svc =>
          match gm_Send svc (gm_email t) raw with
          | Some err =>
              let '(now, w1) := time_Now w in
              let rec := Rec_setTimeStamp now rec in
              let rec := Rec_setStatus StatusUndelivered rec in
              match err with
              | ApiError message =>
                  let '(now, w2) := time_Now w1 in
                  let rec := Rec_setTimeStamp now rec in
                  ((rec, Some (Errorf ("gmail error: " +:+ message))), w2)
              | _ => ((rec, Some err), w1)
              end
          | None =>
              let '(now, w1) := time_Now w in
              let rec := Rec_setTimeStamp now rec in
              let rec := Rec_setStatus StatusDelivered rec in
              ((rec, None), w1)
          end
      end
  end.

Global Instance GMailTunnel_Tunnel : Tunnel GMailTunnel :=
  {| describe := GMailTunnel_describe;
     Type_ := GMailTunnel_Type;
     ID := GMailTunnel_ID;
     Send := GMailTunnel_Send |}.

End Mail.

(** *** The logging wrapper *)

Record LogWrapper (T : Type) : Type := mkLogWrapper {
  lw_t : T;
  lw_c : Client
}.
Arguments mkLogWrapper {T} _ _.
Arguments lw_t {T} _.
Arguments lw_c {T} _.

(** [NewLogWrapperTunnel]; [None] is the panic on a nil client. *)
Definition NewLogWrapperTunnel {T : Type} (t : T) (c : option Client)
  : option (LogWrapper T) :=
  match c with
  | None => None
  | Some c => Some (mkLogWrapper t c)
  end.

Section LogWrapper.
Context {T : Type} `{Tunnel T}.

(** The transaction function of [LogWrapper.Send]; [rec] is the variable of
    the enclosing function. *)
Definition LogWrapper_Send_tx (t : LogWrapper T) (p : Poke)
  : M (TxS Record_) () :=
  r ← inWorld (Send (lw_t t) p);
  assign r.1;;
  ref ← inWorld (NewDoc "service/notify/record");
  match r.2 with
  | Some err => inWorld (λ w, ((), Fprintf_Stderr err w))
  | None => mret ()
  end;;
  tx_Create ref (Record_toDoc r.1).

Definition LogWrapper_Send (t : LogWrapper T) (p : Poke) (w : World)
  : (Record_ * option error) * World :=
  let rec := Rec_setMessageID (Poke_ID p) zeroRecord in
  match RunTransaction (LogWrapper_Send_tx t p) rec w with
  | (err, rec, w1) => ((rec, err), w1)
  end.

Global Instance LogWrapper_Tunnel : Tunnel (LogWrapper T) :=
  {| describe := λ t, describe (lw_t t);
     Type_ := λ t, Type_ (lw_t t);
     ID := λ t, ID (lw_t t);
     Send := LogWrapper_Send |}.

End LogWrapper.

(** ** Sample data for the examples

    A poke, and a world with nothing stored and no fault ahead. *)
Definition samplePoke : Poke :=
  mkPoke "p1" "sms" "+15551234567" "" "hi" 100%Z 200%Z.

Definition sampleGen (n : nat) : string := "doc" +:+ pretty n.

Definition emptyWorld (now : Time) : World :=
  mkWorld ∅ [] now sampleGen 0 [].

(** A provider client that accepts every message with the given status and
    an update date that parses, or does not. *)
Definition acceptingTwilio (status : string) (date : result Time) : Twilio :=
  mkTwilio "AC0" (λ _ _ _ _ _, SmsResp (mkSmsResponse status "date" date)).

Definition rejectingTwilio (info : string) : Twilio :=
  mkTwilio "AC0" (λ _ _ _ _ _, SmsException (mkException 400 "bad" 21211 info)).

Definition sampleSMS (c : Twilio) : SMSTunnel := mkSMSTunnel c "+15550000000".

Definition sampleStore : firePokeStore := mkStore "pokes" "records" "archive".

Definition sampleRecord : Record_ := mkRecord "p1" "" StatusDelivered 300%Z.

Definition unavailable : error := StatusErr Unavailable "connection refused".

(** A world whose next remote calls meet the given faults. *)
Definition faultyWorld (now : Time) (fs : list (option error)) : World :=
  mkWorld ∅ fs now sampleGen 0 [].

(** ** Words for the statements *)

(** The next [k] remote calls meet no fault. *)
Definition healthy (k : nat) (w : World) : Prop :=
  Forall (λ f, f = None) (take k (faults w)).

Global Instance healthy_dec k w : Decision (healthy k w).
Proof. unfold healthy. apply _. Defined.

(** A world in which the given documents are stored. *)
Definition worldWith (d : Database) (now : Time) (fs : list (option error))
  : World :=
  mkWorld d fs now sampleGen 0 [].

(** The sample poke stored under its id in the sample store's collection. *)
Definition sampleDb : Database :=
  {[ Doc_ "pokes" "p1" := Poke_toDoc samplePoke ]}.

(** Whether a stored document is due at [now]: it has a [date_to_send]
    that is an instant strictly before [now]. Nothing else of the document
    is looked at. *)
Definition dueAt (now : Time) (d : Doc) : bool :=
  match d !! "date_to_send" with
  | Some (VTime t) => (t <? now)%Z
  | _ => false
  end.

(** The documents of the store's poke collection that are due in [w]. *)
Definition dueDocs (s : firePokeStore) (w : World) : list (DocumentRef * Doc) :=
  filter (λ x, x.1.1 = pokeCol s ∧ dueAt (clock w) x.2 = true)
         (map_to_list (db w)).

(** The query that [ListToSend] builds at clock reading [now]. *)
Definition toSendQuery (s : firePokeStore) (now : Time) : Query :=
  Limit 1000 (Where (pokeCol s) "date_to_send" OpLt (VTime now)).

Definition isOk {A : Type} (r : result A) : bool :=
  match r with
  | Ok _ => true
  | Err _ => false
  end.

(** Three stored pokes at clock reading 500: one due long ago and already
    expired, one scheduled for exactly 500, one scheduled for later. *)
Definition overduePoke : Poke := mkPoke "a" "sms" "+1" "" "late" 100%Z 200%Z.
Definition boundaryPoke : Poke := mkPoke "b" "sms" "+2" "" "now" 500%Z 900%Z.
Definition futurePoke : Poke := mkPoke "c" "email" "x@y" "s" "soon" 501%Z 900%Z.

Definition threePokes : Database :=
  <[Doc_ "pokes" "a" := Poke_toDoc overduePoke]>
  (<[Doc_ "pokes" "b" := Poke_toDoc boundaryPoke]>
  (<[Doc_ "pokes" "c" := Poke_toDoc futurePoke]> ∅)).

(** Two worlds that the store's client cannot tell apart: the same
    documents, the same faults ahead, the same ids to come. *)
Definition same_store (w w' : World) : Prop :=
  db w = db w' ∧ faults w = faults w' ∧ idgen w = idgen w'
  ∧ idctr w = idctr w'.

(** The record write of the logging wrapper on its own: a transaction that
    creates one new document in the record collection. *)
Definition recordWrite_tx (doc : Doc) : M (TxS ()) () :=
  ref ← inWorld (NewDoc "service/notify/record");
  tx_Create ref doc.

(** How that write ends in [w]: [None] when the document is stored. Which
    document is written makes no difference to it. *)
Definition recordWriteOutcome (w : World) : option error :=
  (RunTransaction (recordWrite_tx ∅) () w).1.1.

Definition sampleLog (c : Twilio) : LogWrapper SMSTunnel :=
  mkLogWrapper (sampleSMS c) FirestoreClient.

(** A transaction function that leaves the committed documents alone:
    whatever it does reaches them only through the commit. *)
Definition keeps_db {L : Type} (f : M (TxS L) ()) : Prop :=
  ∀ s, db (tx_world (f s).2) = db (tx_world s).

(** ** More words for the statements *)

(** Whether a stored document is expired at [now]: it has an [expiry] that
    is an instant strictly before [now]. *)
Definition expiredAt (now : Time) (d : Doc) : bool :=
  match d !! "expiry" with
  | Some (VTime t) => (t <? now)%Z
  | _ => false
  end.

(** The documents of the store's poke collection that are expired in [w]. *)
Definition expiredDocs (s : firePokeStore) (w : World)
  : list (DocumentRef * Doc) :=
  filter (λ x, x.1.1 = pokeCol s ∧ expiredAt (clock w) x.2 = true)
         (map_to_list (db w)).

(** The query that [ListExpired] builds at clock reading [now]. *)
Definition expiredQuery (s : firePokeStore) (now : Time) : Query :=
  Limit 1000 (Where (pokeCol s) "expiry" OpLt (VTime now)).

(** A poke to be sent in the future whose expiry is long past. *)
Definition stalePoke : Poke := mkPoke "d" "sms" "+4" "" "stale" 900%Z 100%Z.

Definition staleDb : Database :=
  <[Doc_ "pokes" "d" := Poke_toDoc stalePoke]> threePokes.

(** The query that [GetRecord] builds, and whether a stored document is a
    record of the message [mid]: its [message_id] is that string. *)
Definition recordQuery (s : firePokeStore) (mid : string) : Query :=
  Where (recCol s) "message_id" OpEq (VString mid).

Definition recordOf (mid : string) (d : Doc) : bool :=
  bool_decide (d !! "message_id" = Some (VString mid)).


Definition aborted : error := StatusErr Aborted "contention".

(** * Properties *)

(** ** The tunnels' records *)

(** What the SMS tunnel stores as status, case by case. *)
Lemma SMSTunnel_Send_status (t : SMSTunnel) (p : Poke) (w : World) :
  Rec_Status (SMSTunnel_Send t p w).1.1 =
    match SendSMS (sms_c t) (SMSTunnel_ID t) (Poke_To p) (Poke_Body p) ""
                  (AccountSid (sms_c t)) with
    | SmsErr _ => StatusError
    | SmsException ex => ex_MoreInfo ex
    | SmsResp resp => sms_Status resp
    end.
Proof.
  unfold SMSTunnel_Send.
  destruct (SendSMS _ _ _ _ _ _) as [err|ex|resp]; simpl; try reflexivity.
  destruct (sms_DateUpdateAsTime resp); reflexivity.
Qed.

Lemma SMSTunnel_Send_messageID (t : SMSTunnel) (p : Poke) (w : World) :
  Rec_MessageID (SMSTunnel_Send t p w).1.1 = Poke_ID p.
Proof.
  unfold SMSTunnel_Send.
  destruct (SendSMS _ _ _ _ _ _) as [err|ex|resp]; simpl; try reflexivity.
  destruct (sms_DateUpdateAsTime resp); reflexivity.
Qed.

Lemma SMSTunnel_Send_world (t : SMSTunnel) (p : Poke) (w : World) :
  (SMSTunnel_Send t p w).2 = w.
Proof.
  unfold SMSTunnel_Send.
  destruct (SendSMS _ _ _ _ _ _) as [err|ex|resp]; simpl; try reflexivity.
  destruct (sms_DateUpdateAsTime resp); reflexivity.
Qed.

Section MailFacts.
Variable Email_Bytes : string → string → string → result string.
Variable EncodeToString : string → string.

Lemma GMailTunnel_Send_status (t : GMailTunnel) (p : Poke) (w : World) :
  Rec_Status (GMailTunnel_Send Email_Bytes EncodeToString t p w).1.1
    ∈ [StatusError; StatusUndelivered; StatusDelivered].
Proof.
  unfold GMailTunnel_Send.
  destruct (Email_Bytes _ _ _) as [rawBs|err]; simpl; [|set_solver].
  destruct (gm_svc t) as [svc|]; simpl; [|set_solver].
  destruct (gm_Send svc _ _) as [err|]; simpl; [|set_solver].
  destruct err; simpl; set_solver.
Qed.

Lemma GMailTunnel_Send_world (t : GMailTunnel) (p : Poke) (w : World) :
  (GMailTunnel_Send Email_Bytes EncodeToString t p w).2 = w.
Proof.
  unfold GMailTunnel_Send.
  destruct (Email_Bytes _ _ _) as [rawBs|err]; simpl; [|done].
  destruct (gm_svc t) as [svc|]; simpl; [|done].
  destruct (gm_Send svc _ _) as [err|]; simpl; [|done].
  destruct err; done.
Qed.

End MailFacts.


(** C10: when the provider call succeeds (no transport error, no provider
    exception) but the update date of the response does not parse,
    [SMSTunnel.Send] returns a record with the poke's id, the provider's
    status and the current time as timestamp, together with the parse error:
    a non-nil error next to the provider's status. *)
Theorem SMSTunnel_Send_parse_failure
    (t : SMSTunnel) (p : Poke) (w : World) (resp : SmsResponse) (err : error) :
  SendSMS (sms_c t) (SMSTunnel_ID t) (Poke_To p) (Poke_Body p) ""
          (AccountSid (sms_c t)) = SmsResp resp →
  sms_DateUpdateAsTime resp = Err err →
  SMSTunnel_Send t p w =
    ((mkRecord (Poke_ID p) "" (sms_Status resp) (clock w), Some err), w).
Proof.
  intros Hreply Hparse. unfold SMSTunnel_Send.
  rewrite Hreply, Hparse. reflexivity.
Qed.

Lemma SMSTunnel_Send_parse_failure_witness :
  SMSTunnel_Send
    (sampleSMS (acceptingTwilio "delivered" (Err (Errorf "parsing time"))))
    samplePoke (emptyWorld 500) =
  ((mkRecord "p1" "" "delivered" 500%Z, Some (Errorf "parsing time")),
   emptyWorld 500).
Proof.
  apply (SMSTunnel_Send_parse_failure
           (sampleSMS (acceptingTwilio "delivered" (Err (Errorf "parsing time"))))
           samplePoke (emptyWorld 500)
           (mkSmsResponse "delivered" "date" (Err (Errorf "parsing time")))
           (Errorf "parsing time")); reflexivity.
Defined.

(** C4, as stated, fails: the SMS tunnel stores the provider's own status
    string, here the provider's lower-case "queued", and on a provider
    exception the exception's info text; neither is one of the five
    constants. *)
Lemma SMS_status_outside_vocabulary :
  Rec_Status (SMSTunnel_Send (sampleSMS (acceptingTwilio "queued" (Ok 7%Z)))
                             samplePoke (emptyWorld 500)).1.1 = "queued"
  ∧ ("queued" ∉ statusVocabulary)
  ∧ (Rec_Status (SMSTunnel_Send
                   (sampleSMS (rejectingTwilio "https://www.twilio.com/docs/errors/21211"))
                   samplePoke (emptyWorld 500)).1.1
     ∉ statusVocabulary).
Proof.
  split; [reflexivity|].
  split; apply (bool_decide_unpack _); vm_compute; exact I.
Qed.

(** C4, amended: the Email tunnel's [Send] always stores one of the
    constants [StatusError], [StatusUndelivered], [StatusDelivered]; the SMS
    tunnel's [Send] stores [StatusError] on a transport error and otherwise
    the provider's own string, unchanged: the exception's info text, or the
    response's status. *)
Theorem Send_status_by_tunnel :
  (∀ Email_Bytes EncodeToString (t : GMailTunnel) (p : Poke) (w : World),
      let st := Rec_Status
                  (GMailTunnel_Send Email_Bytes EncodeToString t p w).1.1 in
      st ∈ [StatusError; StatusUndelivered; StatusDelivered]
      ∧ st ∈ statusVocabulary)
  ∧ (∀ (t : SMSTunnel) (p : Poke) (w : World),
      Rec_Status (SMSTunnel_Send t p w).1.1 =
        match SendSMS (sms_c t) (SMSTunnel_ID t) (Poke_To p) (Poke_Body p) ""
                      (AccountSid (sms_c t)) with
        | SmsErr _ => StatusError
        | SmsException ex => ex_MoreInfo ex
        | SmsResp resp => sms_Status resp
        end).
Proof.
  split.
  - intros EB ES t p w st.
    pose proof (GMailTunnel_Send_status EB ES t p w) as Hin. fold st in Hin.
    split; [exact Hin|].
    unfold statusVocabulary.
    apply elem_of_cons in Hin as [->|Hin]; [do 4 right; left|].
    apply elem_of_cons in Hin as [->|Hin]; [do 2 right; left|].
    apply elem_of_cons in Hin as [->|Hin]; [right; left|].
    by apply elem_of_nil in Hin.
  - apply SMSTunnel_Send_status.
Qed.

(** ** Errors of the store *)

(** C7, where the code departs from it: when the backend refuses the write,
    [CreateRecord] hands the backend's error back as it is, while [Create]
    in the same situation wraps it with the operation name and the id. *)
Theorem CreateRecord_error_not_wrapped
    (s : firePokeStore) (r : Record_) (p : Poke) (w : World)
    (e : error) (fs : list (option error)) :
  faults w = Some e :: fs →
  (CreateRecord s r w).1 = Err e
  ∧ (Create s p w).1 = Err (firePokeStoreErr e "create" (Poke_ID p)).
Proof.
  intros Hf. unfold CreateRecord, Create, CollectionRef_Add, NewDoc, Commit, rpc.
  simpl. rewrite Hf. split; reflexivity.
Qed.

Lemma CreateRecord_error_not_wrapped_witness :
  (CreateRecord sampleStore sampleRecord
                (faultyWorld 500 [Some unavailable])).1 = Err unavailable
  ∧ is_firePokeStoreErr unavailable = false.
Proof.
  split; [|reflexivity].
  apply (CreateRecord_error_not_wrapped sampleStore sampleRecord samplePoke
           (faultyWorld 500 [Some unavailable]) unavailable []).
  reflexivity.
Defined.

(** ** Transactions are all-or-nothing *)

Lemma rpc_db (w : World) : db (rpc w).2 = db w.
Proof. unfold rpc. destruct (faults w); reflexivity. Qed.

Lemma rpc_clock (w : World) : clock (rpc w).2 = clock w.
Proof. unfold rpc. destruct (faults w); reflexivity. Qed.

Lemma rpc_no_fault (w : World) : faults w = [] → rpc w = (None, w).
Proof. unfold rpc. intros ->. reflexivity. Qed.

Lemma Commit_err_db (ws : list Write) (w w' : World) (e : error) :
  Commit ws w = (Some e, w') → db w' = db w.
Proof.
  unfold Commit. pose proof (rpc_db w) as Hdb.
  destruct (rpc w) as [[e0|] w1]; simpl in Hdb.
  - intros [= _ <-]. exact Hdb.
  - destruct (applyWrites (db w1) ws); intros [= ]; subst. exact Hdb.
Qed.

Lemma Commit_ok_db (ws : list Write) (w w' : World) :
  Commit ws w = (None, w') → applyWrites (db w) ws = Ok (db w').
Proof.
  unfold Commit. pose proof (rpc_db w) as Hdb.
  destruct (rpc w) as [[e0|] w1]; simpl in Hdb; [intros [= ]|].
  rewrite Hdb. destruct (applyWrites (db w) ws) as [d|e]; intros [= ]; subst.
  reflexivity.
Qed.

Section TxFacts.
Context {L : Type}.

Lemma runAttempts_err (f : M (TxS L) ()) (n : nat) :
  keeps_db f →
  ∀ last l w e l' w',
    runAttempts n f last l w = (Some e, l', w') → db w' = db w.
Proof.
  intros Hf. induction n as [|n IH]; intros last l w e l' w'; simpl.
  - intros [= _ _ <-]. reflexivity.
  - pose proof (rpc_db w) as Hdb.
    destruct (rpc w) as [[e0|] w1]; simpl in Hdb.
    { intros [= _ _ <-]. exact Hdb. }
    pose proof (Hf (mkTxS l [] w1)) as Hk. simpl in Hk.
    destruct (f (mkTxS l [] w1)) as [[[]|e1] s1]; simpl in Hk.
    + destruct (Commit (tx_writes s1) (tx_world s1)) as [[e2|] w2] eqn:Hc.
      * apply Commit_err_db in Hc.
        destruct (hasCode Aborted e2).
        -- intros Hrun. apply IH in Hrun. congruence.
        -- intros [= _ _ <-]. congruence.
      * intros [= ].
    + intros [= _ _ <-]. congruence.
Qed.

Lemma runAttempts_ok (f : M (TxS L) ()) (n : nat) :
  keeps_db f →
  ∀ last l w l' w',
    (n = 0 → last ≠ None) →
    runAttempts n f last l w = (None, l', w') →
    ∃ s0 s1, tx_writes s0 = [] ∧ db (tx_world s0) = db w
             ∧ f s0 = (Ok (), s1) ∧ tx_locals s1 = l'
             ∧ applyWrites (db w) (tx_writes s1) = Ok (db w').
Proof.
  intros Hf. induction n as [|n IH]; intros last l w l' w' Hn; simpl.
  - intros [= -> _ _]. exfalso. by apply Hn.
  - pose proof (rpc_db w) as Hdb.
    destruct (rpc w) as [[e0|] w1]; simpl in Hdb; [intros [= ]|].
    pose proof (Hf (mkTxS l [] w1)) as Hk. simpl in Hk.
    destruct (f (mkTxS l [] w1)) as [[[]|e1] s1] eqn:Hrun; simpl in Hk;
      [|intros [= ]].
    destruct (Commit (tx_writes s1) (tx_world s1)) as [[e2|] w2] eqn:Hc.
    + pose proof (Commit_err_db _ _ _ _ Hc) as Hdb2.
      destruct (hasCode Aborted e2); [|intros [= ]].
      intros Hrest. apply IH in Hrest; [|done].
      destruct Hrest as (s0 & s2 & Hw & Hd & Hfs & Hl & Happ).
      exists s0, s2. repeat split; try done; congruence.
    + intros [= <- <-]. apply Commit_ok_db in Hc.
      exists (mkTxS l [] w1), s1. simpl. repeat split; try done.
      congruence.
Qed.

Lemma RunTransaction_err (f : M (TxS L) ()) (l l' : L) (w w' : World) (e : error) :
  keeps_db f → RunTransaction f l w = (Some e, l', w') → db w' = db w.
Proof. intros Hf. apply runAttempts_err, Hf. Qed.

Lemma RunTransaction_ok (f : M (TxS L) ()) (l l' : L) (w w' : World) :
  keeps_db f → RunTransaction f l w = (None, l', w') →
  ∃ s0 s1, tx_writes s0 = [] ∧ db (tx_world s0) = db w
           ∧ f s0 = (Ok (), s1) ∧ tx_locals s1 = l'
           ∧ applyWrites (db w) (tx_writes s1) = Ok (db w').
Proof. intros Hf. apply runAttempts_ok; [exact Hf|done]. Qed.

(** With no fault ahead, one attempt settles the transaction. *)
Lemma RunTransaction_no_fault (f : M (TxS L) ()) (l : L) (w : World) :
  faults w = [] →
  RunTransaction f l w =
    match f (mkTxS l [] w) with
    | (Err e, s) => (Some e, tx_locals s, tx_world s)
    | (Ok _, s) =>
        match Commit (tx_writes s) (tx_world s) with
        | (None, w2) => (None, tx_locals s, w2)
        | (Some e, w2) =>
            if hasCode Aborted e
            then runAttempts 4 f (Some e) (tx_locals s) w2
            else (Some e, tx_locals s, w2)
        end
    end.
Proof.
  intros Hf. unfold RunTransaction, DefaultTransactionMaxAttempts. simpl.
  rewrite (rpc_no_fault w Hf). reflexivity.
Qed.

End TxFacts.

Lemma rpc_healthy (k : nat) (w : World) :
  healthy (S k) w →
  ∃ w1, rpc w = (None, w1) ∧ healthy k w1 ∧ db w1 = db w ∧ clock w1 = clock w.
Proof.
  unfold healthy, rpc. destruct (faults w) as [|f fs] eqn:Hf.
  - intros _. exists w. rewrite Hf. repeat split. by rewrite take_nil.
  - simpl. intros [-> Hrest]%Forall_cons. eexists. repeat split. exact Hrest.
Qed.

Lemma healthy_S (k : nat) (w : World) : healthy (S k) w → healthy k w.
Proof.
  unfold healthy. intros H. destruct (faults w) as [|f fs]; [by rewrite take_nil|].
  destruct k; [constructor|].
  simpl in *. apply Forall_cons in H as [-> H]. constructor; [done|].
  clear -H. revert k H. induction fs as [|g gs IH]; intros k H.
  - by rewrite take_nil.
  - destruct k; [constructor|]. simpl in *.
    apply Forall_cons in H as [-> H]. constructor; [done|]. by apply IH.
Qed.

(** ** Archive *)

Section ArchiveFacts.
Variables (pokeRef arcRef : DocumentRef) (t : Time).

Lemma Archive_tx_keeps_db : keeps_db (Archive_tx pokeRef arcRef t).
Proof.
  intros s. unfold Archive_tx, mbind, M_bind, bind, tx_Get.
  destruct (tx_writes s); [|reflexivity].
  pose proof (rpc_db (tx_world s)) as Hdb.
  destruct (rpc (tx_world s)) as [[e|] w1]; simpl in *; [exact Hdb|].
  destruct (db w1 !! pokeRef) as [d|]; simpl; [|exact Hdb].
  unfold lift. destruct (DataTo_Poke d); simpl; exact Hdb.
Qed.

(** What a successful run of the transaction function has read and
    buffered. *)
Lemma Archive_tx_ok (s0 s1 : TxS ArchivedPoke) :
  tx_writes s0 = [] →
  Archive_tx pokeRef arcRef t s0 = (Ok (), s1) →
  ∃ d p, db (tx_world s0) !! pokeRef = Some d ∧ DataTo_Poke d = Ok p
         ∧ tx_locals s1 = mkArchivedPoke "" (Poke_Tunnel p) (Poke_To p)
                                         (After t (Poke_Expiry p))
         ∧ tx_writes s1 = [WCreate arcRef (ArchivedPoke_toDoc (tx_locals s1));
                           WDelete pokeRef].
Proof.
  intros Hw. unfold Archive_tx, mbind, M_bind, bind, tx_Get. cbv beta. rewrite Hw.
  pose proof (rpc_db (tx_world s0)) as Hdb.
  destruct (rpc (tx_world s0)) as [[e|] w1]; simpl in *; [intros [= ]|].
  rewrite Hdb.
  destruct (db (tx_world s0) !! pokeRef) as [d|] eqn:Hget; simpl;
    [|intros [= ]].
  unfold lift. destruct (DataTo_Poke d) as [p|e] eqn:Hdec; simpl;
    [|intros [= ]].
  intros [= <-]. exists d, p. simpl. repeat split. exact Hdec.
Qed.

(** A missing poke makes the transaction function fail: with NotFound when
    the read itself went through. *)
Lemma Archive_tx_absent (s0 : TxS ArchivedPoke) :
  tx_writes s0 = [] →
  db (tx_world s0) !! pokeRef = None →
  ∃ e s1, Archive_tx pokeRef arcRef t s0 = (Err e, s1)
          ∧ (healthy 1 (tx_world s0) → e = notFound pokeRef).
Proof.
  intros Hw Hnone. unfold Archive_tx, mbind, M_bind, bind, tx_Get. cbv beta. rewrite Hw.
  pose proof (rpc_db (tx_world s0)) as Hdb.
  destruct (rpc (tx_world s0)) as [[e|] w1] eqn:Hrpc; simpl in *.
  - eexists _, _. split; [reflexivity|].
    intros (w2 & Hr & _)%rpc_healthy. congruence.
  - rewrite Hdb, Hnone. eexists _, _. split; [reflexivity|done].
Qed.

End ArchiveFacts.

(** The shape of every outcome of [Archive]. *)
Lemma Archive_outcome (s : firePokeStore) (id : string) (w : World) :
  let pokeRef := Doc_ (pokeCol s) id in
  let arcRef := Doc_ (archiveCol s) id in
  (∃ d p w',
      db w !! pokeRef = Some d ∧ DataTo_Poke d = Ok p
      ∧ Archive s id w =
          (Ok (mkArchivedPoke "" (Poke_Tunnel p) (Poke_To p)
                              (After (clock w) (Poke_Expiry p))), w')
      ∧ db w !! arcRef = None
      ∧ db w' = delete pokeRef
                  (<[arcRef := ArchivedPoke_toDoc
                                 (mkArchivedPoke "" (Poke_Tunnel p) (Poke_To p)
                                    (After (clock w) (Poke_Expiry p)))]> (db w)))
  ∨ (∃ e w',
      Archive s id w = (Err (firePokeStoreErr e "archive" id), w')
      ∧ db w' = db w).
Proof.
  intros pokeRef arcRef. unfold Archive. simpl.
  fold pokeRef arcRef.
  destruct (RunTransaction (Archive_tx pokeRef arcRef (clock w))
                           zeroArchivedPoke w) as [[[e|] a] w'] eqn:Hrun.
  - right. exists e, w'. split; [reflexivity|].
    eapply RunTransaction_err; [apply Archive_tx_keeps_db|exact Hrun].
  - left. apply RunTransaction_ok in Hrun; [|apply Archive_tx_keeps_db].
    destruct Hrun as (s0 & s1 & Hw & Hd & Hf & Hl & Happ).
    apply Archive_tx_ok in Hf as (d & p & Hget & Hdec & Hloc & Hws); [|done].
    rewrite Hd in Hget. rewrite Hws, Hloc in Happ. simpl in Happ.
    destruct (db w !! arcRef) eqn:Harc; [discriminate|].
    simpl in Happ. injection Happ as Happ.
    exists d, p, w'. subst a. rewrite Hloc. repeat split; try done.
Qed.

Lemma Archive_absent_healthy (s : firePokeStore) (id : string) (w : World) :
  db w !! Doc_ (pokeCol s) id = None →
  healthy 2 w →
  ∃ w', Archive s id w =
          (Err (firePokeStoreErr (notFound (Doc_ (pokeCol s) id)) "archive" id),
           w').
Proof.
  intros Hnone Hh. unfold Archive, RunTransaction, DefaultTransactionMaxAttempts.
  simpl.
  destruct (rpc_healthy _ _ Hh) as (w1 & Hrpc & Hh1 & Hdb1 & _).
  rewrite Hrpc.
  destruct (Archive_tx_absent (Doc_ (pokeCol s) id) (Doc_ (archiveCol s) id)
              (clock w) (mkTxS zeroArchivedPoke [] w1)) as (e & s1 & Hrun & He).
  { reflexivity. }
  { simpl. congruence. }
  rewrite Hrun. rewrite (He Hh1). eexists. reflexivity.
Qed.

Lemma Archive_present_healthy (s : firePokeStore) (id : string) (w : World)
    (d : Doc) (p : Poke) :
  db w !! Doc_ (pokeCol s) id = Some d →
  DataTo_Poke d = Ok p →
  db w !! Doc_ (archiveCol s) id = None →
  healthy 3 w →
  ∃ w', Archive s id w =
          (Ok (mkArchivedPoke "" (Poke_Tunnel p) (Poke_To p)
                              (After (clock w) (Poke_Expiry p))), w').
Proof.
  intros Hget Hdec Harc Hh.
  unfold Archive, RunTransaction, DefaultTransactionMaxAttempts. simpl.
  destruct (rpc_healthy _ _ Hh) as (w1 & Hrpc & Hh1 & Hdb1 & _).
  destruct (rpc_healthy _ _ Hh1) as (w2 & Hrpc1 & Hh2 & Hdb2 & _).
  destruct (rpc_healthy _ _ Hh2) as (w3 & Hrpc2 & _ & Hdb3 & _).
  rewrite Hrpc.
  unfold Archive_tx, mbind, M_bind, bind, tx_Get. simpl.
  rewrite Hrpc1, Hdb2, Hdb1, Hget. simpl.
  unfold lift. rewrite Hdec. simpl.
  unfold Commit. rewrite Hrpc2, Hdb3, Hdb2, Hdb1. simpl.
  rewrite Harc. simpl. eexists. reflexivity.
Qed.

(** C1: [Archive] is all-or-nothing. Either it returns an archived poke, and
    then the poke was stored, no archived document of that id existed, and
    the database afterwards is the one before with the archived document
    created under the same id and the poke deleted; or it returns an error
    wrapped as an "archive" store error for that id, and then the database
    is what it was. A missing poke always gives the second outcome, with
    NotFound as the cause once the two calls before the read went through;
    a stored, readable poke with no archived namesake is archived when the
    three remote calls in a row meet no fault. *)
Theorem Archive_all_or_nothing (s : firePokeStore) (id : string) (w : World) :
  let pokeRef := Doc_ (pokeCol s) id in
  let arcRef := Doc_ (archiveCol s) id in
  ((∃ a w', Archive s id w = (Ok a, w')
            ∧ is_Some (db w !! pokeRef)
            ∧ db w' = delete pokeRef (<[arcRef := ArchivedPoke_toDoc a]> (db w))
            ∧ db w' !! pokeRef = None
            ∧ db w' !! arcRef = Some (ArchivedPoke_toDoc a))
   ∨ (∃ e w', Archive s id w = (Err (firePokeStoreErr e "archive" id), w')
              ∧ db w' = db w))
  ∧ (db w !! pokeRef = None →
     ∃ e w', Archive s id w = (Err (firePokeStoreErr e "archive" id), w')
             ∧ db w' = db w
             ∧ (healthy 2 w → e = notFound pokeRef))
  ∧ (∀ d p, db w !! pokeRef = Some d → DataTo_Poke d = Ok p →
            db w !! arcRef = None → healthy 3 w →
            ∃ a w', Archive s id w = (Ok a, w')).
Proof.
  intros pokeRef arcRef.
  pose proof (Archive_outcome s id w) as Hout. simpl in Hout.
  fold pokeRef arcRef in Hout.
  split; [|split].
  - destruct Hout as [(d & p & w' & Hget & Hdec & Hrun & Harc & Hdb)|Herr];
      [left|right; exact Herr].
    eexists _, w'. split; [exact Hrun|].
    split; [by eexists|]. split; [exact Hdb|].
    assert (pokeRef ≠ arcRef) as Hne by (intros Heq; congruence).
    rewrite Hdb. split.
    + apply lookup_delete_eq.
    + rewrite lookup_delete_ne by done. apply lookup_insert_eq.
  - intros Hnone.
    destruct Hout as [(d & p & w' & Hget & _)|(e & w' & Hrun & Hdb)];
      [congruence|].
    exists e, w'. split; [exact Hrun|]. split; [exact Hdb|].
    intros Hh. destruct (Archive_absent_healthy s id w Hnone Hh) as (w2 & Hrun2).
    fold pokeRef in Hrun2. congruence.
  - intros d p Hget Hdec Harc Hh.
    destruct (Archive_present_healthy s id w d p Hget Hdec Harc Hh) as (w' & Hrun).
    eauto.
Qed.

Lemma Archive_all_or_nothing_witness :
  ∃ a w', Archive sampleStore "p1" (worldWith sampleDb 500 []) = (Ok a, w').
Proof.
  apply (proj2 (proj2 (Archive_all_or_nothing sampleStore "p1"
                         (worldWith sampleDb 500 [])))
               (Poke_toDoc samplePoke) (Poke_setID "" samplePoke)).
  - vm_compute. reflexivity.
  - vm_compute. reflexivity.
  - vm_compute. reflexivity.
  - apply (bool_decide_unpack _). vm_compute. exact I.
Defined.

Lemma GetAll_db (q : Query) (w : World) : db (GetAll q w).2 = db w.
Proof.
  unfold GetAll. pose proof (rpc_db w) as Hdb.
  destruct (rpc w) as [[e|] w1]; exact Hdb.
Qed.

Lemma ListToSend_db (s : firePokeStore) (w : World) :
  db (ListToSend s w).2 = db w.
Proof.
  unfold ListToSend. simpl.
  pose proof (GetAll_db (Limit 1000 (Where (pokeCol s) "date_to_send" OpLt
                                           (VTime (clock w)))) w) as Hdb.
  destruct (GetAll _ w) as [[docs|e] w1]; exact Hdb.
Qed.

(** C2: the expired flag of the archived poke is the comparison of the
    instant at which [Archive] runs with the stored expiry: archiving at
    clock reading [t] yields [Expired = t.After(poke.Expiry)], hence [true]
    whenever the expiry is already past. A listing made earlier, at another
    clock reading, leaves no trace in it: after [ListToSend] at any time, an
    [Archive] at time [t] still compares [t] with the stored expiry. *)
Theorem Archive_expired_at_archive_time (s : firePokeStore) (id : string) :
  (∀ w a w',
      Archive s id w = (Ok a, w') →
      ∃ d p, db w !! Doc_ (pokeCol s) id = Some d ∧ DataTo_Poke d = Ok p
             ∧ Arc_Expired a = After (clock w) (Poke_Expiry p)
             ∧ ((Poke_Expiry p < clock w)%Z → Arc_Expired a = true))
  ∧ (∀ w0 r w1 t a w',
      ListToSend s w0 = (r, w1) →
      Archive s id (set_clock t w1) = (Ok a, w') →
      ∃ d p, db w0 !! Doc_ (pokeCol s) id = Some d ∧ DataTo_Poke d = Ok p
             ∧ Arc_Expired a = After t (Poke_Expiry p)
             ∧ ((Poke_Expiry p < t)%Z → Arc_Expired a = true)).
Proof.
  assert (∀ w a w',
      Archive s id w = (Ok a, w') →
      ∃ d p, db w !! Doc_ (pokeCol s) id = Some d ∧ DataTo_Poke d = Ok p
             ∧ Arc_Expired a = After (clock w) (Poke_Expiry p)
             ∧ ((Poke_Expiry p < clock w)%Z → Arc_Expired a = true)) as Hone.
  { intros w a w' Hrun.
    destruct (Archive_outcome s id w)
      as [(d & p & w2 & Hget & Hdec & Hrun2 & _)|(e & w2 & Hrun2 & _)];
      [|congruence].
    rewrite Hrun in Hrun2. injection Hrun2 as -> _.
    exists d, p. repeat split; try done.
    simpl. unfold After. intros Hlt. by apply Z.ltb_lt. }
  split; [exact Hone|].
  intros w0 r w1 t a w' Hlist Hrun.
  destruct (Hone _ _ _ Hrun) as (d & p & Hget & Hdec & Hflag & Hpast).
  exists d, p. simpl in *.
  pose proof (ListToSend_db s w0) as Hdb. rewrite Hlist in Hdb. simpl in Hdb.
  rewrite <- Hdb. done.
Qed.

Lemma Archive_expired_at_archive_time_witness :
  ∃ d p, db (worldWith sampleDb 150 []) !! Doc_ "pokes" "p1" = Some d
         ∧ DataTo_Poke d = Ok p
         ∧ Arc_Expired (mkArchivedPoke "" "sms" "+15551234567" true)
           = After 250 (Poke_Expiry p)
         ∧ ((Poke_Expiry p < 250)%Z →
            Arc_Expired (mkArchivedPoke "" "sms" "+15551234567" true) = true).
Proof.
  eapply (proj2 (Archive_expired_at_archive_time sampleStore "p1")
                (worldWith sampleDb 150 [])
                (Ok [samplePoke]) (worldWith sampleDb 150 []) 250%Z).
  - vm_compute. reflexivity.
  - vm_compute. reflexivity.
Defined.

(** C6, where the code departs from it: the archived document is stored
    under the poke's own id, but the [ArchivedPoke] value that [Archive]
    returns carries the empty string as [ID], whatever the id was. *)
Theorem Archive_returns_empty_ID
    (s : firePokeStore) (id : string) (w w' : World) (a : ArchivedPoke) :
  Archive s id w = (Ok a, w') →
  Arc_ID a = ""
  ∧ db w' !! Doc_ (archiveCol s) id = Some (ArchivedPoke_toDoc a)
  ∧ db w' !! Doc_ (pokeCol s) id = None.
Proof.
  intros Hrun.
  destruct (Archive_outcome s id w)
    as [(d & p & w2 & Hget & _ & Hrun2 & Harc & Hdb)|(e & w2 & Hrun2 & _)];
    [|congruence].
  rewrite Hrun in Hrun2. injection Hrun2 as -> ->.
  assert (Doc_ (pokeCol s) id ≠ Doc_ (archiveCol s) id) as Hne
    by (intros Heq; congruence).
  rewrite Hdb. split; [reflexivity|]. split.
  - rewrite lookup_delete_ne by done. apply lookup_insert_eq.
  - apply lookup_delete_eq.
Qed.

Lemma Archive_returns_empty_ID_witness :
  ∃ a w', Archive sampleStore "p1" (worldWith sampleDb 500 []) = (Ok a, w')
          ∧ Arc_ID a = "" ∧ Arc_ID a ≠ "p1".
Proof.
  eexists _, _. split; [vm_compute; reflexivity|].
  split; [|discriminate].
  eapply (Archive_returns_empty_ID sampleStore "p1" (worldWith sampleDb 500 [])).
  vm_compute. reflexivity.
Defined.

(** ** Update *)

Section UpdateFacts.
Variables (s : firePokeStore) (p : Poke).

Lemma Update_tx_keeps_db : keeps_db (Update_tx s p).
Proof.
  intros st. unfold Update_tx, mbind, M_bind, bind, tx_Get.
  destruct (tx_writes st); [|reflexivity].
  pose proof (rpc_db (tx_world st)) as Hdb.
  destruct (rpc (tx_world st)) as [[e|] w1]; simpl in *; [exact Hdb|].
  destruct (db w1 !! Doc_ (pokeCol s) (Poke_ID p)); simpl; exact Hdb.
Qed.

Lemma Update_tx_ok (s0 s1 : TxS ()) :
  tx_writes s0 = [] →
  Update_tx s p s0 = (Ok (), s1) →
  is_Some (db (tx_world s0) !! Doc_ (pokeCol s) (Poke_ID p))
  ∧ tx_writes s1 = [WSet (Doc_ (pokeCol s) (Poke_ID p)) (Poke_toDoc p)].
Proof.
  intros Hw. unfold Update_tx, mbind, M_bind, bind, tx_Get. cbv beta.
  rewrite Hw.
  pose proof (rpc_db (tx_world s0)) as Hdb.
  destruct (rpc (tx_world s0)) as [[e|] w1]; simpl in *; [intros [= ]|].
  rewrite Hdb.
  destruct (db (tx_world s0) !! Doc_ (pokeCol s) (Poke_ID p)) as [d|] eqn:Hget;
    simpl; [|intros [= ]].
  intros [= <-]. simpl. split; [by eexists|reflexivity].
Qed.

Lemma Update_outcome (w : World) :
  let ref := Doc_ (pokeCol s) (Poke_ID p) in
  (∃ w', Update s p w = (Ok p, w')
         ∧ is_Some (db w !! ref)
         ∧ db w' = <[ref := Poke_toDoc p]> (db w))
  ∨ (∃ e w', Update s p w = (Err (firePokeStoreErr e "update" (Poke_ID p)), w')
             ∧ db w' = db w).
Proof.
  intros ref. unfold Update.
  destruct (RunTransaction (Update_tx s p) () w) as [[[e|] u] w'] eqn:Hrun.
  - right. exists e, w'. split; [reflexivity|].
    eapply RunTransaction_err; [apply Update_tx_keeps_db|exact Hrun].
  - left. apply RunTransaction_ok in Hrun; [|apply Update_tx_keeps_db].
    destruct Hrun as (s0 & s1 & Hw & Hd & Hf & _ & Happ).
    apply Update_tx_ok in Hf as [Hsome Hws]; [|done].
    rewrite Hd in Hsome. rewrite Hws in Happ. simpl in Happ.
    injection Happ as Happ. exists w'. repeat split; done.
Qed.

Lemma Update_absent_healthy (w : World) :
  db w !! Doc_ (pokeCol s) (Poke_ID p) = None →
  healthy 2 w →
  ∃ w', Update s p w =
          (Err (firePokeStoreErr (notFound (Doc_ (pokeCol s) (Poke_ID p)))
                                 "update" (Poke_ID p)), w').
Proof.
  intros Hnone Hh. unfold Update, RunTransaction, DefaultTransactionMaxAttempts.
  simpl.
  destruct (rpc_healthy _ _ Hh) as (w1 & Hrpc & Hh1 & Hdb1 & _).
  destruct (rpc_healthy _ _ Hh1) as (w2 & Hrpc1 & _ & Hdb2 & _).
  rewrite Hrpc. unfold Update_tx, mbind, M_bind, bind, tx_Get. simpl.
  rewrite Hrpc1, Hdb2, Hdb1, Hnone. eexists. reflexivity.
Qed.

Lemma Update_present_healthy (w : World) :
  is_Some (db w !! Doc_ (pokeCol s) (Poke_ID p)) →
  healthy 3 w →
  ∃ w', Update s p w = (Ok p, w')
        ∧ db w' = <[Doc_ (pokeCol s) (Poke_ID p) := Poke_toDoc p]> (db w).
Proof.
  intros [d Hget] Hh.
  unfold Update, RunTransaction, DefaultTransactionMaxAttempts. simpl.
  destruct (rpc_healthy _ _ Hh) as (w1 & Hrpc & Hh1 & Hdb1 & _).
  destruct (rpc_healthy _ _ Hh1) as (w2 & Hrpc1 & Hh2 & Hdb2 & _).
  destruct (rpc_healthy _ _ Hh2) as (w3 & Hrpc2 & _ & Hdb3 & _).
  rewrite Hrpc. unfold Update_tx, mbind, M_bind, bind, tx_Get. simpl.
  rewrite Hrpc1, Hdb2, Hdb1, Hget. simpl.
  unfold Commit. rewrite Hrpc2. simpl.
  eexists. split; [reflexivity|]. simpl. congruence.
Qed.

End UpdateFacts.

(** C8: [Update] reads the target inside its transaction before it writes.
    When no document of the poke's id is stored, the call fails with an
    "update" store error for that id (NotFound as the cause once the calls
    up to the read went through) and the database is unchanged; whenever the
    call succeeds the id was stored and the database afterwards holds, under
    that id, exactly the document of the given poke, every other document
    as before; every failure leaves the database as it was; and a stored
    target is replaced when the three remote calls in a row meet no
    fault. *)
Theorem Update_read_before_write (s : firePokeStore) (p : Poke) (w : World) :
  let ref := Doc_ (pokeCol s) (Poke_ID p) in
  ((∃ w', Update s p w = (Ok p, w')
          ∧ is_Some (db w !! ref)
          ∧ db w' !! ref = Some (Poke_toDoc p)
          ∧ (∀ r, r ≠ ref → db w' !! r = db w !! r))
   ∨ (∃ e w', Update s p w = (Err (firePokeStoreErr e "update" (Poke_ID p)), w')
              ∧ db w' = db w))
  ∧ (db w !! ref = None →
     ∃ e w', Update s p w = (Err (firePokeStoreErr e "update" (Poke_ID p)), w')
             ∧ db w' = db w
             ∧ (healthy 2 w → e = notFound ref))
  ∧ (is_Some (db w !! ref) → healthy 3 w →
     ∃ w', Update s p w = (Ok p, w')
           ∧ db w' !! ref = Some (Poke_toDoc p)).
Proof.
  intros ref.
  pose proof (Update_outcome s p w) as Hout. simpl in Hout. fold ref in Hout.
  split; [|split].
  - destruct Hout as [(w' & Hrun & Hsome & Hdb)|Herr]; [left|right; exact Herr].
    exists w'. split; [exact Hrun|]. split; [exact Hsome|]. rewrite Hdb. split.
    + apply lookup_insert_eq.
    + intros r Hne. by rewrite lookup_insert_ne.
  - intros Hnone.
    destruct Hout as [(w' & _ & [d Hsome] & _)|(e & w' & Hrun & Hdb)];
      [congruence|].
    exists e, w'. split; [exact Hrun|]. split; [exact Hdb|].
    intros Hh. destruct (Update_absent_healthy s p w Hnone Hh) as (w2 & Hrun2).
    fold ref in Hrun2. congruence.
  - intros Hsome Hh.
    destruct (Update_present_healthy s p w Hsome Hh) as (w' & Hrun & Hdb).
    exists w'. split; [exact Hrun|]. fold ref in Hdb. rewrite Hdb.
    apply lookup_insert_eq.
Qed.

Lemma Update_read_before_write_witness :
  ∃ e w', Update sampleStore samplePoke (emptyWorld 500)
          = (Err (firePokeStoreErr e "update" "p1"), w')
          ∧ db w' = db (emptyWorld 500)
          ∧ (healthy 2 (emptyWorld 500) → e = notFound (Doc_ "pokes" "p1")).
Proof.
  apply (proj1 (proj2 (Update_read_before_write sampleStore samplePoke
                         (emptyWorld 500)))).
  vm_compute. reflexivity.
Defined.

(** ** Queries and ListToSend *)

Lemma cut_subseteq {A : Type} (lim : option nat) (l : list A) (x : A) :
  x ∈ cut lim l → x ∈ l.
Proof.
  destruct lim as [n|]; simpl; [|done]. apply subseteq_take.
Qed.

Lemma elem_of_runQuery (q : Query) (d : Database) (snap : DocumentSnapshot) :
  snap ∈ runQuery q d →
  d !! Ref snap = Some (fields snap) ∧ selects q (Ref snap, fields snap).
Proof.
  unfold runQuery. intros (x & -> & Hx)%list_elem_of_fmap.
  apply cut_subseteq in Hx. rewrite merge_sort_Permutation in Hx.
  apply list_elem_of_filter in Hx as [Hsel Hin]. destruct x as [r doc].
  apply elem_of_map_to_list in Hin. simpl. done.
Qed.

Lemma length_runQuery (q : Query) (d : Database) :
  length (runQuery q d) =
    match q_limit q with
    | Some n => n `min` length (filter (selects q) (map_to_list d))
    | None => length (filter (selects q) (map_to_list d))
    end.
Proof.
  unfold runQuery. rewrite length_fmap.
  destruct (q_limit q) as [n|]; simpl.
  - rewrite length_take. f_equal. apply Permutation_length, merge_sort_Permutation.
  - apply Permutation_length, merge_sort_Permutation.
Qed.

(** Below the limit, a query misses nothing. *)
Lemma runQuery_complete (q : Query) (d : Database) (r : DocumentRef) (doc : Doc) :
  (∀ n, q_limit q = Some n → length (filter (selects q) (map_to_list d)) ≤ n) →
  d !! r = Some doc → selects q (r, doc) →
  mkSnapshot r doc ∈ runQuery q d.
Proof.
  intros Hlim Hget Hsel. unfold runQuery.
  apply (list_elem_of_fmap_2' _ _ (r, doc)); [|reflexivity].
  assert ((r, doc) ∈ merge_sort (before q) (filter (selects q) (map_to_list d)))
    as Hin.
  { rewrite merge_sort_Permutation. apply list_elem_of_filter.
    split; [exact Hsel|]. by apply elem_of_map_to_list. }
  destruct (q_limit q) as [n|]; simpl; [|exact Hin].
  rewrite take_ge; [exact Hin|].
  erewrite Permutation_length by apply merge_sort_Permutation. by apply Hlim.
Qed.

Lemma matches_toSendQuery (s : firePokeStore) (now : Time) (d : Doc) :
  matches (toSendQuery s now) d = dueAt now d.
Proof.
  unfold matches, dueAt, toSendQuery. simpl.
  destruct (d !! "date_to_send") as [[x|t|b]|]; reflexivity.
Qed.

Lemma filter_toSendQuery (s : firePokeStore) (w : World) :
  filter (selects (toSendQuery s (clock w))) (map_to_list (db w)) = dueDocs s w.
Proof.
  unfold dueDocs. apply list_filter_iff. intros x. unfold selects.
  rewrite matches_toSendQuery. reflexivity.
Qed.

(** What the decoding loop returns: the pokes it was given, then one poke
    per document, read from the document and named after it. *)
Lemma decodePokes_ok (errFunc : string) (docs : list DocumentSnapshot) :
  ∀ acc pokes,
    decodePokes errFunc docs acc = Ok pokes →
    ∃ ps, pokes = acc ++ ps
          ∧ Forall2 (λ doc p, ∃ p0, DataTo_Poke (fields doc) = Ok p0
                                    ∧ p = Poke_setID (Ref doc).2 p0) docs ps.
Proof.
  induction docs as [|doc rest IH]; intros acc pokes; simpl.
  - intros [= <-]. exists []. split; [by rewrite app_nil_r|constructor].
  - destruct (DataTo_Poke (fields doc)) as [p0|e] eqn:Hdec; [|intros [= ]].
    intros Hrest. apply IH in Hrest as (ps & -> & Hall).
    exists (Poke_setID (Ref doc).2 p0 :: ps). split.
    + by rewrite <- app_assoc.
    + constructor; [by exists p0|exact Hall].
Qed.

Lemma decodePokes_total (errFunc : string) (docs : list DocumentSnapshot) :
  Forall (λ doc, isOk (DataTo_Poke (fields doc)) = true) docs →
  ∀ acc, ∃ pokes, decodePokes errFunc docs acc = Ok pokes.
Proof.
  induction 1 as [|doc rest Hok _ IH]; intros acc; simpl.
  - by eexists.
  - destruct (DataTo_Poke (fields doc)) as [p0|e]; [|discriminate]. apply IH.
Qed.

Lemma Poke_setID_fields (id : string) (p0 : Poke) :
  Poke_ID p0 = "" → Poke_setID "" (Poke_setID id p0) = p0.
Proof. destruct p0; simpl. intros ->. reflexivity. Qed.

Lemma DataTo_Poke_ID (d : Doc) (p : Poke) : DataTo_Poke d = Ok p → Poke_ID p = "".
Proof.
  unfold DataTo_Poke, rbind.
  repeat match goal with
         | |- context [match ?r with Ok _ => _ | Err _ => _ end] => destruct r
         end; intros [= <-]; reflexivity.
Qed.

Lemma DataTo_Poke_DateToSend (d : Doc) (p : Poke) (now : Time) :
  DataTo_Poke d = Ok p → dueAt now d = true →
  d !! "date_to_send" = Some (VTime (Poke_DateToSend p))
  ∧ (Poke_DateToSend p < now)%Z.
Proof.
  unfold DataTo_Poke, rbind, dueAt.
  destruct (stringField d "tunnel"); [|intros [= ]].
  destruct (stringField d "to"); [|intros [= ]].
  destruct (stringField d "subject"); [|intros [= ]].
  destruct (stringField d "body"); [|intros [= ]].
  unfold timeField at 1.
  destruct (d !! "date_to_send") as [[x|t|b]|]; try (intros [= ]; fail);
    try (intros _ [= ]; fail).
  destruct (timeField d "expiry"); [|intros [= ]].
  intros [= <-] Hlt. simpl. split; [reflexivity|]. by apply Z.ltb_lt.
Qed.

(** What [ListToSend] asks the backend, and what it makes of the answer. *)
Lemma ListToSend_unfold (s : firePokeStore) (w : World) :
  ListToSend s w =
    match rpc w with
    | (Some e, w1) => (Err (firePokeStoreErr e "list_to_send" ""), w1)
    | (None, w1) =>
        (decodePokes "list_to_send"
                     (runQuery (toSendQuery s (clock w)) (db w1)) [], w1)
    end.
Proof.
  unfold ListToSend, GetAll, toSendQuery. simpl.
  destruct (rpc w) as [[e|] w1]; reflexivity.
Qed.

(** C5: [ListToSend] returns the stored pokes whose [date_to_send] is
    strictly before the clock reading, at most 1000 of them. Every returned
    poke is stored under its id with a send time before now; when at most
    1000 documents are due every due document is returned, whatever its
    expiry; a document due exactly now is never returned; the number
    returned is the smaller of 1000 and the number of due documents. And
    the call does return when the backend answers and the due documents
    are readable as pokes. *)
Theorem ListToSend_strictly_before_now (s : firePokeStore) (w : World) :
  (∀ pokes w',
      ListToSend s w = (Ok pokes, w') →
      length pokes = 1000 `min` length (dueDocs s w)
      ∧ (∀ p, p ∈ pokes →
              ∃ d, db w !! Doc_ (pokeCol s) (Poke_ID p) = Some d
                   ∧ DataTo_Poke d = Ok (Poke_setID "" p)
                   ∧ d !! "date_to_send" = Some (VTime (Poke_DateToSend p))
                   ∧ (Poke_DateToSend p < clock w)%Z)
      ∧ (length (dueDocs s w) ≤ 1000 →
         ∀ id d t, db w !! Doc_ (pokeCol s) id = Some d →
                   d !! "date_to_send" = Some (VTime t) → (t < clock w)%Z →
                   ∃ p, p ∈ pokes ∧ Poke_ID p = id)
      ∧ (∀ id d, db w !! Doc_ (pokeCol s) id = Some d →
                 d !! "date_to_send" = Some (VTime (clock w)) →
                 ∀ p, p ∈ pokes → Poke_ID p ≠ id))
  ∧ (healthy 1 w →
     Forall (λ x, isOk (DataTo_Poke x.2) = true) (dueDocs s w) →
     ∃ pokes w', ListToSend s w = (Ok pokes, w')).
Proof.
  rewrite ListToSend_unfold. split.
  - intros pokes w'. pose proof (rpc_db w) as Hdb.
    destruct (rpc w) as [[e|] w1]; simpl in Hdb; [intros [= ]|].
    rewrite Hdb. intros [= Hdec <-].
    apply decodePokes_ok in Hdec as (ps & -> & Hall). simpl.
    set (q := toSendQuery s (clock w)) in *.
    assert (∀ p, p ∈ ps →
              ∃ d, db w !! Doc_ (pokeCol s) (Poke_ID p) = Some d
                   ∧ DataTo_Poke d = Ok (Poke_setID "" p)
                   ∧ d !! "date_to_send" = Some (VTime (Poke_DateToSend p))
                   ∧ (Poke_DateToSend p < clock w)%Z) as Hsound.
    { intros p (i & Hi)%list_elem_of_lookup.
      destruct (Forall2_lookup_r _ _ _ _ _ Hall Hi) as (doc & Hdoc & p0 & Hp0 & ->).
      apply list_elem_of_lookup_2, elem_of_runQuery in Hdoc as [Hget [Hcol Hm]].
      subst q. rewrite matches_toSendQuery in Hm. simpl in Hcol, Hm.
      pose proof (DataTo_Poke_ID _ _ Hp0) as Hid.
      destruct (DataTo_Poke_DateToSend _ _ _ Hp0 Hm) as [Hdate Hlt].
      exists (fields doc). destruct doc as [[col id] d]. simpl in *. subst col.
      rewrite (Poke_setID_fields id p0 Hid).
      destruct p0; simpl in *. done. }
    split; [|split; [exact Hsound|split]].
    + rewrite <- (Forall2_length _ _ _ Hall), length_runQuery. subst q. simpl.
      by rewrite filter_toSendQuery.
    + intros Hfew id d t Hget Hdate Hlt.
      assert (mkSnapshot (Doc_ (pokeCol s) id) d ∈ runQuery q (db w)) as Hin.
      { apply runQuery_complete; [| exact Hget |].
        - subst q. simpl. intros n [= <-]. by rewrite filter_toSendQuery.
        - split; [reflexivity|]. subst q. rewrite matches_toSendQuery.
          simpl. unfold dueAt. rewrite Hdate. by apply Z.ltb_lt. }
      apply list_elem_of_lookup in Hin as [i Hi].
      destruct (Forall2_lookup_l _ _ _ _ _ Hall Hi) as (p & Hp & p0 & _ & ->).
      exists (Poke_setID id p0). split; [|by destruct p0].
      by eapply list_elem_of_lookup_2.
    + intros id d Hget Hdate p Hp Hid.
      destruct (Hsound p Hp) as (d' & Hget' & _ & Hdate' & Hlt).
      rewrite Hid, Hget in Hget'. injection Hget' as <-.
      rewrite Hdate in Hdate'. injection Hdate' as Heq. lia.
  - intros Hh Hread.
    destruct (rpc_healthy _ _ Hh) as (w1 & -> & _ & Hdb & _).
    destruct (decodePokes_total "list_to_send"
                (runQuery (toSendQuery s (clock w)) (db w1))) with (acc := @nil Poke)
      as [pokes Hdec].
    + apply Forall_forall. intros doc [Hget Hsel]%elem_of_runQuery.
      rewrite Forall_forall in Hread.
      apply (Hread (Ref doc, fields doc)).
      rewrite <- filter_toSendQuery. apply list_elem_of_filter.
      split; [exact Hsel|]. apply elem_of_map_to_list. by rewrite <- Hdb.
    + exists pokes, w1. by rewrite Hdec.
Qed.

Lemma ListToSend_strictly_before_now_witness :
  (ListToSend sampleStore (worldWith threePokes 500 [])).1 = Ok [overduePoke]
  ∧ ∃ p, p ∈ [overduePoke] ∧ Poke_ID p = "a".
Proof.
  split; [vm_compute; reflexivity|].
  eapply (proj1 (proj2 (proj2
           (proj1 (ListToSend_strictly_before_now sampleStore
                     (worldWith threePokes 500 []))
                  [overduePoke] (worldWith threePokes 500 []) _)))).
  - vm_compute. lia.
  - vm_compute. reflexivity.
  - vm_compute. reflexivity.
  - vm_compute. reflexivity.
  Unshelve. vm_compute. reflexivity.
Defined.

(** ** The logging wrapper *)

Lemma same_store_refl (w : World) : same_store w w.
Proof. by repeat split. Qed.

Lemma same_store_sym (w w' : World) : same_store w w' → same_store w' w.
Proof. intros (? & ? & ? & ?). by repeat split. Qed.

Lemma same_store_trans (w1 w2 w3 : World) :
  same_store w1 w2 → same_store w2 w3 → same_store w1 w3.
Proof.
  intros (? & ? & ? & ?) (? & ? & ? & ?). repeat split; congruence.
Qed.

Lemma rpc_same_store (w w' : World) :
  same_store w w' →
  (rpc w).1 = (rpc w').1 ∧ same_store (rpc w).2 (rpc w').2.
Proof.
  intros (Hdb & Hf & Hg & Hc). unfold rpc. rewrite <- Hf.
  destruct (faults w) eqn:Hfw; simpl; repeat split; simpl; congruence.
Qed.

Lemma NewDoc_same_store (col : string) (w w' : World) :
  same_store w w' →
  (NewDoc col w).1 = (NewDoc col w').1
  ∧ same_store (NewDoc col w).2 (NewDoc col w').2.
Proof.
  intros (Hdb & Hf & Hg & Hc). unfold NewDoc. simpl.
  rewrite Hg, Hc. repeat split; done.
Qed.

Lemma Fprintf_Stderr_same_store (e : error) (w : World) :
  same_store (Fprintf_Stderr e w) w.
Proof. by repeat split. Qed.

(** Whether a new document can be committed does not depend on what is in
    it; and a commit that fails leaves the two worlds alike. *)
Lemma Commit_create_same_store (r : DocumentRef) (d1 d2 : Doc) (w w' : World) :
  same_store w w' →
  (Commit [WCreate r d1] w).1 = (Commit [WCreate r d2] w').1
  ∧ ((Commit [WCreate r d1] w).1 ≠ None →
     same_store (Commit [WCreate r d1] w).2 (Commit [WCreate r d2] w').2).
Proof.
  intros Hs. destruct (rpc_same_store _ _ Hs) as [Hr Hs1]. unfold Commit.
  destruct (rpc w) as [[e|] w1], (rpc w') as [[e'|] w1']; simpl in *;
    try discriminate.
  - injection Hr as <-. split; [reflexivity|]. intros _. exact Hs1.
  - destruct Hs1 as (Hdb & Hrest). rewrite <- Hdb.
    destruct (db w1 !! r); simpl.
    + split; [reflexivity|]. intros _. by split.
    + split; [reflexivity|]. intros Hne. by destruct Hne.
Qed.

Section LogWrapperFacts.
Context {T : Type} `{Tunnel T}.
Variables (t : LogWrapper T) (p : Poke).

(** One run of the transaction function, step by step. *)
Lemma LogWrapper_Send_tx_run (l : Record_) (ws : list Write) (w1 : World) :
  LogWrapper_Send_tx t p (mkTxS l ws w1) =
    let sent := Send (lw_t t) p w1 in
    let new := NewDoc "service/notify/record" sent.2 in
    let w4 := match sent.1.2 with
              | Some err => Fprintf_Stderr err new.2
              | None => new.2
              end in
    (Ok (), mkTxS sent.1.1 (ws ++ [WCreate new.1 (Record_toDoc sent.1.1)]) w4).
Proof.
  unfold LogWrapper_Send_tx, mbind, M_bind, bind, inWorld, assign, tx_Create,
    tx_addWrite. simpl.
  destruct (Send (lw_t t) p w1) as [[r [err|]] w2]; reflexivity.
Qed.

(** The error of the whole transaction is the error of the record write,
    for a wrapped tunnel that leaves the store's view of the world alone. *)
Lemma runAttempts_recordWrite (doc : Doc) :
  (∀ q w, same_store w (Send (lw_t t) q w).2) →
  ∀ n last l u w w',
    same_store w w' →
    (runAttempts n (LogWrapper_Send_tx t p) last l w).1.1 =
    (runAttempts n (recordWrite_tx doc) last u w').1.1.
Proof.
  intros Hinert. induction n as [|n IH]; intros last l u w w' Hs; simpl;
    [reflexivity|].
  destruct (rpc_same_store _ _ Hs) as [Hr Hs1].
  destruct (rpc w) as [[e|] w1], (rpc w') as [[e'|] w1']; simpl in *;
    try discriminate.
  { by injection Hr as <-. }
  rewrite LogWrapper_Send_tx_run. cbv zeta.
  pose proof (Hinert p w1) as Hs2.
  destruct (Send (lw_t t) p w1) as [[r e] w2]. simpl in Hs2.
  unfold recordWrite_tx, mbind, M_bind, bind, inWorld, tx_Create, tx_addWrite,
    NewDoc.
  simpl.
  match goal with
  | |- (let (_, _) := Commit [WCreate ?r1 ?d1] ?wa in _).1.1
       = (let (_, _) := Commit [WCreate ?r2 ?d2] ?wb in _).1.1 =>
      assert (r1 = r2) as Hrr;
      [|assert (same_store wa wb) as Hab;
        [|destruct (Commit_create_same_store r1 d1 d2 wa wb Hab) as [Hc Hs5];
          rewrite <- Hrr;
          destruct (Commit [WCreate r1 d1] wa) as [[ce|] w5],
                   (Commit [WCreate r1 d2] wb) as [[ce'|] w5']]]
  end.
  - destruct Hs2 as (_ & _ & Hg & Hc), Hs1 as (_ & _ & Hg' & Hc').
    unfold Doc_. f_equal. congruence.
  - assert (same_store w2 w1') as Hs3
      by (eapply same_store_trans; [apply same_store_sym, Hs2|exact Hs1]).
    destruct Hs3 as (Hd & Hf & Hg & Hc).
    destruct e; repeat split; simpl; congruence.
  - simpl in *. injection Hc as <-.
    destruct (hasCode Aborted ce); [|reflexivity].
    apply IH, Hs5. discriminate.
  - discriminate.
  - discriminate.
  - reflexivity.
Qed.

End LogWrapperFacts.

Lemma Commit_stderr (ws : list Write) (w : World) :
  stderr (Commit ws w).2 = stderr w.
Proof.
  unfold Commit, rpc.
  destruct (faults w) as [|[e|] fs]; simpl; try reflexivity;
    match goal with
    | |- context [applyWrites ?d ws] => destruct (applyWrites d ws)
    end; reflexivity.
Qed.

(** C3, as stated, fails in both directions. A delivery that the provider
    rejects, with the record written: the wrapped [Send] returns an error,
    the wrapper returns none. A delivery that succeeds, with the record
    write refused by the backend: the wrapped [Send] returns no error, the
    wrapper returns the backend's. *)
Lemma LogWrapper_Send_error_is_not_delivery :
  (SMSTunnel_Send (sampleSMS (rejectingTwilio "info")) samplePoke
                  (emptyWorld 500)).1.2
    = Some (twilioException (mkException 400 "bad" 21211 "info"))
  ∧ (LogWrapper_Send (sampleLog (rejectingTwilio "info")) samplePoke
                     (emptyWorld 500)).1.2 = None
  ∧ (SMSTunnel_Send (sampleSMS (acceptingTwilio "delivered" (Ok 7%Z)))
                    samplePoke (faultyWorld 500 [None; Some unavailable])).1.2
    = None
  ∧ (LogWrapper_Send (sampleLog (acceptingTwilio "delivered" (Ok 7%Z)))
                     samplePoke (faultyWorld 500 [None; Some unavailable])).1.2
    = Some unavailable.
Proof. repeat split; vm_compute; reflexivity. Qed.

(** C3, amended: in the logging wrapper's [Send] over the SMS or the Email
    tunnel, the error returned is the outcome of the transaction that
    writes the record, whatever the wrapped tunnel's [Send] returned; a
    failure of the wrapped [Send] does not fail the call, it is written to
    the standard error stream (with no fault ahead: once, after whatever
    was there), and the record returned is the wrapped tunnel's. *)
Theorem LogWrapper_Send_error_is_record_write :
  (∀ (t : LogWrapper SMSTunnel) (p : Poke) (w : World),
      (LogWrapper_Send t p w).1.2 = recordWriteOutcome w
      ∧ (faults w = [] →
         let sent := SMSTunnel_Send (lw_t t) p w in
         (LogWrapper_Send t p w).1.1 = sent.1.1
         ∧ stderr (LogWrapper_Send t p w).2 =
             stderr w ++ match sent.1.2 with
                         | Some err => [Error err]
                         | None => []
                         end))
  ∧ (∀ Email_Bytes EncodeToString,
       let _ : Tunnel GMailTunnel :=
         GMailTunnel_Tunnel Email_Bytes EncodeToString in
       ∀ (t : LogWrapper GMailTunnel) (p : Poke) (w : World),
         (LogWrapper_Send t p w).1.2 = recordWriteOutcome w
         ∧ (faults w = [] →
            let sent := GMailTunnel_Send Email_Bytes EncodeToString (lw_t t) p w in
            (LogWrapper_Send t p w).1.1 = sent.1.1
            ∧ stderr (LogWrapper_Send t p w).2 =
                stderr w ++ match sent.1.2 with
                            | Some err => [Error err]
                            | None => []
                            end)).
Proof.
  assert (∀ (T : Type) (H : Tunnel T) (t : LogWrapper T) (p : Poke) (w : World),
             (∀ q w0, (Send (lw_t t) q w0).2 = w0) →
             (LogWrapper_Send t p w).1.2 = recordWriteOutcome w
             ∧ (faults w = [] →
                (LogWrapper_Send t p w).1.1 = (Send (lw_t t) p w).1.1
                ∧ stderr (LogWrapper_Send t p w).2 =
                    stderr w ++ match (Send (lw_t t) p w).1.2 with
                                | Some err => [Error err]
                                | None => []
                                end)) as Hgen.
  { intros T H t p w Hinert. split.
    - unfold LogWrapper_Send, recordWriteOutcome, RunTransaction.
      pose proof (runAttempts_recordWrite t p ∅) as Hsim.
      specialize (Hsim (λ q w0, eq_ind_r (same_store w0) (same_store_refl w0)
                                         (Hinert q w0))).
      specialize (Hsim DefaultTransactionMaxAttempts None
                       (Rec_setMessageID (Poke_ID p) zeroRecord) () w w
                       (same_store_refl w)).
      destruct (runAttempts _ (LogWrapper_Send_tx t p) _ _ _) as [[e l] w'].
      exact Hsim.
    - intros Hf. unfold LogWrapper_Send.
      rewrite (RunTransaction_no_fault _ _ _ Hf).
      rewrite LogWrapper_Send_tx_run. cbv zeta.
      pose proof (Hinert p w) as Hw.
      destruct (Send (lw_t t) p w) as [[r e] w2]. simpl in Hw. subst w2.
      simpl.
      match goal with
      | |- context [Commit ?ws ?w4] =>
          pose proof (Commit_stderr ws w4) as Herr;
          assert (∀ ce, (Commit ws w4).1 = Some ce → hasCode Aborted ce = false)
            as Hna;
          [|destruct (Commit ws w4) as [[ce|] w5]]
      end.
      + intros ce. unfold Commit, rpc.
        destruct e; simpl; rewrite Hf; simpl;
          match goal with
          | |- context [db w !! ?r] => destruct (db w !! r)
          end; simpl; intros [= <-]; reflexivity.
      + simpl in *. rewrite (Hna ce eq_refl). simpl. split; [reflexivity|].
        rewrite Herr. destruct e; simpl; [reflexivity|by rewrite app_nil_r].
      + simpl in *. split; [reflexivity|].
        rewrite Herr. destruct e; simpl; [reflexivity|by rewrite app_nil_r]. }
  split.
  - intros t p w. apply (Hgen _ SMSTunnel_Tunnel).
    intros q w0. apply SMSTunnel_Send_world.
  - intros EB ES inst t p w.
    apply (Hgen _ (GMailTunnel_Tunnel EB ES)).
    intros q w0. apply GMailTunnel_Send_world.
Qed.

Lemma runAttempts_S {L : Type} (n : nat) (f : M (TxS L) ()) (last : option error)
    (l : L) (w : World) :
  runAttempts (S n) f last l w =
    match rpc w with
    | (Some e, w1) => (Some e, l, w1)
    | (None, w1) =>
        match f (mkTxS l [] w1) with
        | (Err e, s) => (Some e, tx_locals s, tx_world s)
        | (Ok _, s) =>
            match Commit (tx_writes s) (tx_world s) with
            | (None, w2) => (None, tx_locals s, w2)
            | (Some e, w2) =>
                if hasCode Aborted e
                then runAttempts n f (Some e) (tx_locals s) w2
                else (Some e, tx_locals s, w2)
            end
        end
    end.
Proof. reflexivity. Qed.

(** C9: one attempt of the wrapper's transaction, begun without a fault.
    When the commit of the record succeeds, [LogWrapper.Send] returns the
    wrapped tunnel's record with a nil error, also when the wrapped [Send]
    returned an error, which then is only appended to the standard error
    stream; when the commit fails (and is not an Aborted one, which is
    tried again), its error is what the caller receives, whatever the
    wrapped [Send] returned. *)
Theorem LogWrapper_Send_returns_write_error
    {T : Type} `{Tunnel T} (t : LogWrapper T) (p : Poke) (w w1 : World) :
  rpc w = (None, w1) →
  let sent := Send (lw_t t) p w1 in
  let new := NewDoc "service/notify/record" sent.2 in
  let w4 := match sent.1.2 with
            | Some err => Fprintf_Stderr err new.2
            | None => new.2
            end in
  let written := Commit [WCreate new.1 (Record_toDoc sent.1.1)] w4 in
  match written.1 with
  | None =>
      LogWrapper_Send t p w = ((sent.1.1, None), written.2)
      ∧ stderr written.2 = stderr sent.2 ++ match sent.1.2 with
                                            | Some err => [Error err]
                                            | None => []
                                            end
  | Some ce =>
      hasCode Aborted ce = false →
      LogWrapper_Send t p w = ((sent.1.1, Some ce), written.2)
  end.
Proof.
  intros Hrpc. cbv zeta.
  unfold LogWrapper_Send, RunTransaction, DefaultTransactionMaxAttempts.
  rewrite runAttempts_S, Hrpc, LogWrapper_Send_tx_run. cbv zeta.
  cbn [tx_writes tx_world tx_locals app].
  match goal with
  | |- context [Commit ?ws ?w4] =>
      pose proof (Commit_stderr ws w4) as Herr;
      destruct (Commit ws w4) as [[ce|] w5]
  end; cbn [fst snd] in *.
  - intros ->. reflexivity.
  - split; [reflexivity|]. rewrite Herr.
    destruct ((Send (lw_t t) p w1).1.2); simpl;
      [reflexivity|by rewrite app_nil_r].
Qed.

Lemma LogWrapper_Send_returns_write_error_witness :
  LogWrapper_Send (sampleLog (rejectingTwilio "info")) samplePoke (emptyWorld 500)
  = ((mkRecord "p1" "" "info" 500, None),
     mkWorld {[ Doc_ "service/notify/record" "doc0" :=
                  Record_toDoc (mkRecord "p1" "" "info" 500) ]}
             [] 500 sampleGen 1
             [Error (twilioException (mkException 400 "bad" 21211 "info"))])
  ∧ stderr (mkWorld {[ Doc_ "service/notify/record" "doc0" :=
                         Record_toDoc (mkRecord "p1" "" "info" 500) ]}
                    [] 500 sampleGen 1
                    [Error (twilioException (mkException 400 "bad" 21211 "info"))])
    = [] ++ [Error (twilioException (mkException 400 "bad" 21211 "info"))].
Proof.
  exact (LogWrapper_Send_returns_write_error
           (sampleLog (rejectingTwilio "info")) samplePoke
           (emptyWorld 500) (emptyWorld 500) eq_refl).
Defined.

(** * Further properties of the store and the tunnels *)

(** ** What is stored reads back *)




(** ** Create and Get *)

Lemma Commit_no_fault_create (r : DocumentRef) (d : Doc) (w : World) :
  healthy 1 w →
  ∃ w1, db w1 = db w
        ∧ Commit [WCreate r d] w =
            match db w !! r with
            | Some _ => (Some (alreadyExists r), w1)
            | None => (None, set_db (<[r := d]> (db w)) w1)
            end.
Proof.
  intros Hh. destruct (rpc_healthy _ _ Hh) as (w1 & Hrpc & _ & Hdb & _).
  exists w1. split; [exact Hdb|]. unfold Commit. rewrite Hrpc. simpl.
  rewrite Hdb. destruct (db w !! r); reflexivity.
Qed.

Lemma CollectionRef_Add_outcome (col : string) (data : Doc) (w : World) :
  let r := Doc_ col (idgen w (idctr w)) in
  (∃ w', CollectionRef_Add col data w = (Ok r, w')
         ∧ db w !! r = None ∧ db w' = <[r := data]> (db w))
  ∨ (∃ e w', CollectionRef_Add col data w = (Err e, w') ∧ db w' = db w).
Proof.
  intros r. unfold CollectionRef_Add, NewDoc. simpl. fold r.
  destruct (Commit [WCreate r data] (set_idctr (S (idctr w)) w))
    as [[e|] w'] eqn:Hc.
  - right. exists e, w'. split; [reflexivity|].
    apply Commit_err_db in Hc. exact Hc.
  - left. exists w'. split; [reflexivity|].
    apply Commit_ok_db in Hc. simpl in Hc.
    destruct (db w !! r); [discriminate|]. simpl in Hc.
    injection Hc as Hc. done.
Qed.

Lemma CollectionRef_Add_healthy (col : string) (data : Doc) (w : World) :
  healthy 1 w →
  let r := Doc_ col (idgen w (idctr w)) in
  ∃ w', CollectionRef_Add col data w =
          (match db w !! r with
           | Some _ => Err (alreadyExists r)
           | None => Ok r
           end, w').
Proof.
  intros Hh r. unfold CollectionRef_Add, NewDoc. simpl. fold r.
  destruct (Commit_no_fault_create r data (set_idctr (S (idctr w)) w) Hh)
    as (w1 & _ & ->). simpl.
  destruct (db w !! r); eexists; reflexivity.
Qed.

(** X2: [Create] stores the poke under the id that the client generates and
    returns the poke with that id, whatever [ID] it came with: on success
    the id was free and the database gains exactly that document; on any
    error, wrapped as a "create" store error, the database is unchanged.
    When the backend answers, the call succeeds if the generated id is free
    and fails with AlreadyExists, overwriting nothing, if it is taken. *)
Theorem Create_stores_under_generated_id
    (s : firePokeStore) (p : Poke) (w : World) :
  let id := idgen w (idctr w) in
  let ref := Doc_ (pokeCol s) id in
  ((∃ w', Create s p w = (Ok (Poke_setID id p), w')
          ∧ db w !! ref = None
          ∧ db w' = <[ref := Poke_toDoc p]> (db w))
   ∨ (∃ e w', Create s p w = (Err (firePokeStoreErr e "create" (Poke_ID p)), w')
              ∧ db w' = db w))
  ∧ (healthy 1 w → db w !! ref = None →
     ∃ w', Create s p w = (Ok (Poke_setID id p), w'))
  ∧ (healthy 1 w → is_Some (db w !! ref) →
     ∃ w', Create s p w =
             (Err (firePokeStoreErr (alreadyExists ref) "create" (Poke_ID p)),
              w')).
Proof.
  intros id ref. unfold Create. split; [|split].
  - destruct (CollectionRef_Add_outcome (pokeCol s) (Poke_toDoc p) w)
      as [(w' & -> & Hfree & Hdb)|(e & w' & -> & Hdb)].
    + left. exists w'. done.
    + right. exists e, w'. done.
  - intros Hh Hfree.
    destruct (CollectionRef_Add_healthy (pokeCol s) (Poke_toDoc p) w Hh)
      as (w' & ->). simpl. fold id ref. rewrite Hfree. by eexists.
  - intros Hh [d Htaken].
    destruct (CollectionRef_Add_healthy (pokeCol s) (Poke_toDoc p) w Hh)
      as (w' & ->). simpl. fold id ref. rewrite Htaken. by eexists.
Qed.

Lemma Get_loop_db (s : firePokeStore) (IDs rest : list string) :
  ∀ pokes w, db (Get_loop s IDs rest pokes w).2 = db w.
Proof.
  induction rest as [|id rest IH]; intros pokes w; simpl; [reflexivity|].
  unfold DocumentRef_Get. pose proof (rpc_db w) as Hdb.
  destruct (rpc w) as [[e|] w1]; simpl in *; [exact Hdb|].
  destruct (db w1 !! Doc_ (pokeCol s) id) as [d|]; simpl; [|exact Hdb].
  destruct (DataTo_Poke d); simpl; [|exact Hdb].
  rewrite IH. exact Hdb.
Qed.

(** What a successful [Get] has read: one poke per id, in order, each the
    stored document of that id with the id filled in. *)
Lemma Get_loop_ok (s : firePokeStore) (IDs rest : list string) :
  ∀ acc w pokes w',
    Get_loop s IDs rest acc w = (Ok pokes, w') →
    ∃ ps, pokes = acc ++ ps
          ∧ Forall2 (λ id p, ∃ d p0, db w !! Doc_ (pokeCol s) id = Some d
                                     ∧ DataTo_Poke d = Ok p0
                                     ∧ p = Poke_setID id p0) rest ps.
Proof.
  induction rest as [|id rest IH]; intros acc w pokes w'; simpl.
  - intros [= <- <-]. exists []. split; [by rewrite app_nil_r|constructor].
  - unfold DocumentRef_Get. pose proof (rpc_db w) as Hdb.
    destruct (rpc w) as [[e|] w1]; simpl in *; [intros [= ]|].
    rewrite Hdb.
    destruct (db w !! Doc_ (pokeCol s) id) as [d|] eqn:Hget; simpl;
      [|intros [= ]].
    destruct (DataTo_Poke d) as [p0|e] eqn:Hdec; simpl; [|intros [= ]].
    intros Hrest. apply IH in Hrest as (ps & -> & Hall).
    exists (Poke_setID id p0 :: ps). split; [by rewrite <- app_assoc|].
    constructor; [by exists d, p0|].
    eapply Forall2_impl; [exact Hall|]. simpl.
    intros id' p' (d' & p0' & Hget' & Hrest). rewrite Hdb in Hget'. eauto.
Qed.

(** A missing or unreadable document fails the whole call: the pokes read
    so far are dropped. *)
Lemma Get_loop_missing (s : firePokeStore) (IDs rest : list string) (id : string) :
  id ∈ rest →
  ∀ acc w, db w !! Doc_ (pokeCol s) id = None →
  ∃ e wh w', Get_loop s IDs rest acc w = (Err (firePokeStoreErr e "get" wh), w').
Proof.
  induction rest as [|id' rest IH]; intros Hin acc w Hnone.
  - by apply elem_of_nil in Hin.
  - simpl. unfold DocumentRef_Get. pose proof (rpc_db w) as Hdb.
    destruct (rpc w) as [[e|] w1]; simpl in *; [by eexists _, _, _|].
    destruct (db w1 !! Doc_ (pokeCol s) id') as [d|] eqn:Hget; simpl;
      [|by eexists _, _, _].
    destruct (DataTo_Poke d) as [p0|e]; simpl; [|by eexists _, _, _].
    apply elem_of_cons in Hin as [->|Hin]; [congruence|].
    apply IH; [exact Hin|congruence].
Qed.

Lemma Get_loop_healthy (s : firePokeStore) (IDs rest : list string) :
  ∀ acc w,
    healthy (length rest) w →
    Forall (λ id, ∃ d, db w !! Doc_ (pokeCol s) id = Some d
                       ∧ isOk (DataTo_Poke d) = true) rest →
    ∃ pokes w', Get_loop s IDs rest acc w = (Ok pokes, w').
Proof.
  induction rest as [|id rest IH]; intros acc w Hh Hall; simpl.
  - by eexists _, _.
  - apply Forall_cons in Hall as [(d & Hget & Hok) Hall].
    destruct (rpc_healthy _ _ Hh) as (w1 & Hrpc & Hh1 & Hdb & _).
    unfold DocumentRef_Get. rewrite Hrpc, Hdb, Hget. simpl.
    destruct (DataTo_Poke d) as [p0|e]; [|discriminate].
    apply IH; [exact Hh1|].
    eapply Forall_impl; [exact Hall|]. simpl. intros id' Hd. by rewrite Hdb.
Qed.

(** With the backend answering and every stored document readable, a
    missing id is reported as NotFound for the first id that is missing,
    while the error's place names all the ids that were asked for. *)
Lemma Get_loop_first_missing (s : firePokeStore) (IDs rest : list string) (id : string) :
  id ∈ rest →
  ∀ acc w,
    db w !! Doc_ (pokeCol s) id = None →
    healthy (length rest) w →
    Forall (λ i, ∀ d, db w !! Doc_ (pokeCol s) i = Some d
                      → isOk (DataTo_Poke d) = true) rest →
    ∃ id' w', Get_loop s IDs rest acc w =
                (Err (firePokeStoreErr (notFound (Doc_ (pokeCol s) id')) "get"
                                       (Join IDs ",")), w')
              ∧ id' ∈ rest ∧ db w !! Doc_ (pokeCol s) id' = None.
Proof.
  induction rest as [|i rest IH]; intros Hin acc w Hnone Hh Hall.
  - by apply elem_of_nil in Hin.
  - simpl. apply Forall_cons in Hall as [Hi Hall].
    destruct (rpc_healthy _ _ Hh) as (w1 & Hrpc & Hh1 & Hdb & _).
    unfold DocumentRef_Get. rewrite Hrpc, Hdb.
    destruct (db w !! Doc_ (pokeCol s) i) as [d|] eqn:Hget; simpl.
    + specialize (Hi d eq_refl).
      destruct (DataTo_Poke d) as [p0|e]; [|discriminate].
      apply elem_of_cons in Hin as [->|Hin]; [congruence|].
      destruct (IH Hin (acc ++ [Poke_setID i p0]) w1) as (id' & w' & Hrun & Hin' & Hn').
      * congruence.
      * exact Hh1.
      * eapply Forall_impl; [exact Hall|]. simpl. intros j Hj d'.
        rewrite Hdb. apply Hj.
      * exists id', w'. split; [exact Hrun|].
        split; [by apply elem_of_cons; right|congruence].
    + exists i, w1. split; [reflexivity|]. split; [by apply elem_of_cons; left|done].
Qed.

(** X3: [Get] answers for all the ids or for none. On success it returns
    one poke per id, in the order asked, each carrying its id and the stored
    fields of that id; if any asked id is not stored the whole call fails
    with a "get" store error, and when the backend answers and the stored
    documents are readable that error is NotFound for the first missing id
    while its place lists every id asked for; the call succeeds when all ids
    are stored, readable and the backend answers; and it never changes the
    database. *)
Theorem Get_all_or_error (s : firePokeStore) (IDs : list string) (w : World) :
  (∀ pokes w',
      Get s IDs w = (Ok pokes, w') →
      Forall2 (λ id p, Poke_ID p = id
                       ∧ ∃ d, db w !! Doc_ (pokeCol s) id = Some d
                              ∧ DataTo_Poke d = Ok (Poke_setID "" p))
              IDs pokes)
  ∧ (∀ id, id ∈ IDs → db w !! Doc_ (pokeCol s) id = None →
           (∃ e wh w', Get s IDs w = (Err (firePokeStoreErr e "get" wh), w'))
           ∧ (healthy (length IDs) w →
              Forall (λ i, ∀ d, db w !! Doc_ (pokeCol s) i = Some d
                                → isOk (DataTo_Poke d) = true) IDs →
              ∃ id' w', Get s IDs w =
                          (Err (firePokeStoreErr (notFound (Doc_ (pokeCol s) id'))
                                                 "get" (Join IDs ",")), w')
                        ∧ id' ∈ IDs ∧ db w !! Doc_ (pokeCol s) id' = None))
  ∧ (healthy (length IDs) w →
     Forall (λ id, ∃ d, db w !! Doc_ (pokeCol s) id = Some d
                        ∧ isOk (DataTo_Poke d) = true) IDs →
     ∃ pokes w', Get s IDs w = (Ok pokes, w'))
  ∧ db (Get s IDs w).2 = db w.
Proof.
  unfold Get. split; [|split; [|split]].
  - intros pokes w' Hrun.
    apply Get_loop_ok in Hrun as (ps & -> & Hall). simpl.
    eapply Forall2_impl; [exact Hall|]. simpl.
    intros id p (d & p0 & Hget & Hdec & ->).
    split; [by destruct p0|]. exists d. split; [exact Hget|].
    rewrite (Poke_setID_fields id p0 (DataTo_Poke_ID _ _ Hdec)). exact Hdec.
  - intros id Hin Hnone. split.
    + by apply (Get_loop_missing s IDs IDs id).
    + intros Hh Hall. by apply (Get_loop_first_missing s IDs IDs id).
  - apply Get_loop_healthy.
  - apply Get_loop_db.
Qed.

Lemma Get_all_or_error_witness :
  ∃ e wh w', Get sampleStore ["p1"; "p2"] (worldWith sampleDb 500 [])
             = (Err (firePokeStoreErr e "get" wh), w').
Proof.
  apply (proj1 (proj2 (Get_all_or_error sampleStore ["p1"; "p2"]
                         (worldWith sampleDb 500 []))) "p2").
  - apply (bool_decide_unpack _). vm_compute. exact I.
  - vm_compute. reflexivity.
Defined.



(** ** Delete and DeleteArchived *)

Lemma deleteAll_run (col : string) (IDs : list string) :
  ∀ st, deleteAll col IDs st =
          (Ok (), mkTxS (tx_locals st)
                        (tx_writes st ++ ((λ id, WDelete (Doc_ col id)) <$> IDs))
                        (tx_world st)).
Proof.
  induction IDs as [|id rest IH]; intros [l ws w]; simpl.
  - by rewrite app_nil_r.
  - unfold mbind, M_bind, bind, tx_Delete, tx_addWrite. simpl.
    rewrite IH. simpl. by rewrite <- app_assoc.
Qed.

Lemma deleteAll_keeps_db (col : string) (IDs : list string) :
  keeps_db (deleteAll col IDs).
Proof. intros st. rewrite deleteAll_run. reflexivity. Qed.

(** Deletions never fail at the commit, stored or not; afterwards exactly
    the listed documents of the collection are gone. *)
Lemma applyWrites_deletes (col : string) (IDs : list string) :
  ∀ d, ∃ d', applyWrites d ((λ id, WDelete (Doc_ col id)) <$> IDs) = Ok d'
             ∧ ∀ r, d' !! r = if decide (r.1 = col ∧ r.2 ∈ IDs)
                              then None else d !! r.
Proof.
  induction IDs as [|id rest IH]; intros d.
  - exists d. split; [reflexivity|]. intros r.
    destruct (decide _) as [[_ Hin]|_]; [by apply elem_of_nil in Hin|done].
  - rewrite fmap_cons. cbn [applyWrites applyWrite rbind].
    destruct (IH (delete (Doc_ col id) d)) as (d' & -> & Hlook).
    exists d'. split; [reflexivity|]. intros r. rewrite Hlook.
    destruct (decide (r.1 = col ∧ r.2 ∈ rest)) as [[Hc Hin]|Hno].
    + rewrite decide_True; [done|]. split; [done|]. by apply elem_of_cons; right.
    + destruct (decide (r = Doc_ col id)) as [->|Hne].
      * rewrite lookup_delete_eq. rewrite decide_True; [done|].
        split; [done|]. by apply elem_of_cons; left.
      * rewrite lookup_delete_ne by done.
        destruct (decide (r.1 = col ∧ r.2 ∈ id :: rest)) as [[Hc Hin]|_];
          [|done].
        apply elem_of_cons in Hin as [Heq|Hin]; [|by destruct Hno].
        destruct r as [c i]. simpl in *. subst. by destruct Hne.
Qed.

Lemma deleteAll_transaction (col : string) (IDs : list string) (w : World) :
  (∀ u w', RunTransaction (deleteAll col IDs) () w = (None, u, w') →
           ∀ r, db w' !! r = if decide (r.1 = col ∧ r.2 ∈ IDs)
                             then None else db w !! r)
  ∧ (∀ e u w', RunTransaction (deleteAll col IDs) () w = (Some e, u, w') →
               db w' = db w)
  ∧ (healthy 2 w → ∃ w', RunTransaction (deleteAll col IDs) () w = (None, (), w')).
Proof.
  split; [|split].
  - intros u w' Hrun.
    apply RunTransaction_ok in Hrun; [|apply deleteAll_keeps_db].
    destruct Hrun as (s0 & s1 & Hw & _ & Hf & _ & Happ).
    rewrite deleteAll_run in Hf. injection Hf as <-. simpl in Happ.
    rewrite Hw in Happ. simpl in Happ.
    destruct (applyWrites_deletes col IDs (db w)) as (d' & Hd' & Hlook).
    rewrite Hd' in Happ. injection Happ as <-. exact Hlook.
  - intros e u w' Hrun.
    eapply RunTransaction_err; [apply deleteAll_keeps_db|exact Hrun].
  - intros Hh. unfold RunTransaction, DefaultTransactionMaxAttempts.
    rewrite runAttempts_S.
    destruct (rpc_healthy _ _ Hh) as (w1 & -> & Hh1 & Hdb1 & _).
    rewrite deleteAll_run. simpl.
    destruct (rpc_healthy _ _ Hh1) as (w2 & Hrpc2 & _ & Hdb2 & _).
    unfold Commit. rewrite Hrpc2.
    destruct (applyWrites_deletes col IDs (db w2)) as (d' & -> & _).
    by eexists.
Qed.

(** X5: [Delete] removes all the listed pokes or nothing. When it returns no
    error, exactly the documents of the poke collection with a listed id are
    gone and every other document is as before; when it returns an error,
    wrapped as a "delete" store error that lists the ids, the database is
    unchanged. An id that is not stored is no error: whenever the backend
    answers, the call succeeds. *)
Theorem Delete_removes_listed (s : firePokeStore) (IDs : list string) (w : World) :
  (∀ w', Delete s IDs w = (None, w') →
         ∀ r, db w' !! r = if decide (r.1 = pokeCol s ∧ r.2 ∈ IDs)
                           then None else db w !! r)
  ∧ (∀ e w', Delete s IDs w = (Some e, w') →
             db w' = db w
             ∧ ∃ cause, e = firePokeStoreErr cause "delete" (Join IDs ","))
  ∧ (healthy 2 w → ∃ w', Delete s IDs w = (None, w')).
Proof.
  destruct (deleteAll_transaction (pokeCol s) IDs w) as (Hok & Herr & Hrun).
  unfold Delete. split; [|split].
  - intros w'.
    destruct (RunTransaction _ () w) as [[[e|] u] w1] eqn:Htx; [intros [= ]|].
    intros [= <-]. by apply (Hok u).
  - intros e w'.
    destruct (RunTransaction _ () w) as [[[e1|] u] w1] eqn:Htx; [|intros [= ]].
    intros [= <- <-]. split; [by apply (Herr e1 u)|by eexists].
  - intros Hh. destruct (Hrun Hh) as (w' & ->). by eexists.
Qed.

(** X6: [DeleteArchived] does the same in the archive collection: on
    success exactly the archived documents with a listed id are gone, on an
    error (a "delete archived" store error listing the ids) nothing has
    changed, and ids that are not archived are no error. *)
Theorem DeleteArchived_removes_listed
    (s : firePokeStore) (IDs : list string) (w : World) :
  (∀ w', DeleteArchived s IDs w = (None, w') →
         ∀ r, db w' !! r = if decide (r.1 = archiveCol s ∧ r.2 ∈ IDs)
                           then None else db w !! r)
  ∧ (∀ e w', DeleteArchived s IDs w = (Some e, w') →
             db w' = db w
             ∧ ∃ cause, e = firePokeStoreErr cause "delete archived"
                                             (Join IDs ","))
  ∧ (healthy 2 w → ∃ w', DeleteArchived s IDs w = (None, w')).
Proof.
  destruct (deleteAll_transaction (archiveCol s) IDs w) as (Hok & Herr & Hrun).
  unfold DeleteArchived. split; [|split].
  - intros w'.
    destruct (RunTransaction _ () w) as [[[e|] u] w1] eqn:Htx; [intros [= ]|].
    intros [= <-]. by apply (Hok u).
  - intros e w'.
    destruct (RunTransaction _ () w) as [[[e1|] u] w1] eqn:Htx; [|intros [= ]].
    intros [= <- <-]. split; [by apply (Herr e1 u)|by eexists].
  - intros Hh. destruct (Hrun Hh) as (w' & ->). by eexists.
Qed.

(** ** Listings *)

(** What decoding the answer of a query gives: pokes that are stored in the
    collection, match the filter and carry their document's id; and all
    such documents when the limit does not cut the answer. *)
Lemma listing_spec (errFunc : string) (q : Query) (d : Database) (pokes : list Poke) :
  decodePokes errFunc (runQuery q d) [] = Ok pokes →
  length pokes = length (runQuery q d)
  ∧ (∀ p, p ∈ pokes →
          ∃ doc, d !! Doc_ (q_col q) (Poke_ID p) = Some doc
                 ∧ matches q doc = true
                 ∧ DataTo_Poke doc = Ok (Poke_setID "" p))
  ∧ ((∀ n, q_limit q = Some n →
           length (filter (selects q) (map_to_list d)) ≤ n) →
     ∀ id doc, d !! Doc_ (q_col q) id = Some doc → matches q doc = true →
               ∃ p, p ∈ pokes ∧ Poke_ID p = id).
Proof.
  intros Hdec. apply decodePokes_ok in Hdec as (ps & -> & Hall). simpl.
  split; [by rewrite (Forall2_length _ _ _ Hall)|]. split.
  - intros p (i & Hi)%list_elem_of_lookup.
    destruct (Forall2_lookup_r _ _ _ _ _ Hall Hi) as (doc & Hdoc & p0 & Hp0 & ->).
    apply list_elem_of_lookup_2, elem_of_runQuery in Hdoc as [Hget [Hcol Hm]].
    pose proof (DataTo_Poke_ID _ _ Hp0) as Hid.
    exists (fields doc). destruct doc as [[col id] doc]. simpl in *. subst col.
    rewrite (Poke_setID_fields id p0 Hid). by destruct p0.
  - intros Hlim id doc Hget Hm.
    assert (mkSnapshot (Doc_ (q_col q) id) doc ∈ runQuery q d) as Hin.
    { apply runQuery_complete; [exact Hlim|exact Hget|by split]. }
    apply list_elem_of_lookup in Hin as [i Hi].
    destruct (Forall2_lookup_l _ _ _ _ _ Hall Hi) as (p & Hp & p0 & _ & ->).
    exists (Poke_setID id p0). split; [|by destruct p0].
    by eapply list_elem_of_lookup_2.
Qed.

Lemma listing_total (errFunc : string) (q : Query) (d : Database) :
  Forall (λ x, isOk (DataTo_Poke x.2) = true)
         (filter (selects q) (map_to_list d)) →
  ∃ pokes, decodePokes errFunc (runQuery q d) [] = Ok pokes.
Proof.
  intros Hread. apply decodePokes_total.
  apply Forall_forall. intros doc [Hget Hsel]%elem_of_runQuery.
  rewrite Forall_forall in Hread. apply (Hread (Ref doc, fields doc)).
  apply list_elem_of_filter. split; [exact Hsel|].
  by apply elem_of_map_to_list.
Qed.

Lemma matches_expiredQuery (s : firePokeStore) (now : Time) (d : Doc) :
  matches (expiredQuery s now) d = expiredAt now d.
Proof.
  unfold matches, expiredAt, expiredQuery. simpl.
  destruct (d !! "expiry") as [[x|t|b]|]; reflexivity.
Qed.

Lemma filter_expiredQuery (s : firePokeStore) (w : World) :
  filter (selects (expiredQuery s (clock w))) (map_to_list (db w))
  = expiredDocs s w.
Proof.
  unfold expiredDocs. apply list_filter_iff. intros x. unfold selects.
  rewrite matches_expiredQuery. reflexivity.
Qed.

Lemma DataTo_Poke_Expiry (d : Doc) (p : Poke) (now : Time) :
  DataTo_Poke d = Ok p → expiredAt now d = true →
  d !! "expiry" = Some (VTime (Poke_Expiry p)) ∧ (Poke_Expiry p < now)%Z.
Proof.
  unfold DataTo_Poke, rbind, expiredAt.
  destruct (stringField d "tunnel"); [|intros [= ]].
  destruct (stringField d "to"); [|intros [= ]].
  destruct (stringField d "subject"); [|intros [= ]].
  destruct (stringField d "body"); [|intros [= ]].
  destruct (timeField d "date_to_send"); [|intros [= ]].
  unfold timeField.
  destruct (d !! "expiry") as [[x|t|b]|]; try (intros [= ]; fail);
    try (intros _ [= ]; fail).
  intros [= <-] Hlt. simpl. split; [reflexivity|]. by apply Z.ltb_lt.
Qed.

Lemma ListExpired_unfold (s : firePokeStore) (w : World) :
  ListExpired s w =
    match rpc w with
    | (Some e, w1) => (Err (firePokeStoreErr e "list_expired" ""), w1)
    | (None, w1) =>
        (decodePokes "list_expired"
                     (runQuery (expiredQuery s (clock w)) (db w1)) [], w1)
    end.
Proof.
  unfold ListExpired, GetAll, expiredQuery. simpl.
  destruct (rpc w) as [[e|] w1]; reflexivity.
Qed.

(** X7: [ListExpired] returns the stored pokes whose [expiry] is strictly
    before the clock reading, at most 1000 of them, whatever their send
    time. Every returned poke is stored under its id with an expiry before
    now; when at most 1000 documents are expired every one of them is
    returned, also one that is not yet due to be sent; a document expiring
    exactly now is not returned; the number returned is the smaller of 1000
    and the number of expired documents; and the call returns when the
    backend answers and the expired documents are readable as pokes. *)
Theorem ListExpired_strictly_before_now (s : firePokeStore) (w : World) :
  (∀ pokes w',
      ListExpired s w = (Ok pokes, w') →
      length pokes = 1000 `min` length (expiredDocs s w)
      ∧ (∀ p, p ∈ pokes →
              ∃ d, db w !! Doc_ (pokeCol s) (Poke_ID p) = Some d
                   ∧ DataTo_Poke d = Ok (Poke_setID "" p)
                   ∧ d !! "expiry" = Some (VTime (Poke_Expiry p))
                   ∧ (Poke_Expiry p < clock w)%Z)
      ∧ (length (expiredDocs s w) ≤ 1000 →
         ∀ id d t, db w !! Doc_ (pokeCol s) id = Some d →
                   d !! "expiry" = Some (VTime t) → (t < clock w)%Z →
                   ∃ p, p ∈ pokes ∧ Poke_ID p = id)
      ∧ (∀ id d, db w !! Doc_ (pokeCol s) id = Some d →
                 d !! "expiry" = Some (VTime (clock w)) →
                 ∀ p, p ∈ pokes → Poke_ID p ≠ id))
  ∧ (healthy 1 w →
     Forall (λ x, isOk (DataTo_Poke x.2) = true) (expiredDocs s w) →
     ∃ pokes w', ListExpired s w = (Ok pokes, w')).
Proof.
  rewrite ListExpired_unfold. split.
  - intros pokes w'. pose proof (rpc_db w) as Hdb.
    destruct (rpc w) as [[e|] w1]; simpl in Hdb; [intros [= ]|].
    rewrite Hdb. intros [= Hdec <-].
    apply listing_spec in Hdec as (Hlen & Hsound & Hcompl).
    assert (∀ p, p ∈ pokes →
              ∃ d, db w !! Doc_ (pokeCol s) (Poke_ID p) = Some d
                   ∧ DataTo_Poke d = Ok (Poke_setID "" p)
                   ∧ d !! "expiry" = Some (VTime (Poke_Expiry p))
                   ∧ (Poke_Expiry p < clock w)%Z) as Hsound'.
    { intros p Hp. destruct (Hsound p Hp) as (d & Hget & Hm & Hdec).
      rewrite matches_expiredQuery in Hm.
      destruct (DataTo_Poke_Expiry _ _ _ Hdec Hm) as [Hexp Hlt].
      exists d. by destruct p. }
    split; [|split; [exact Hsound'|split]].
    + rewrite Hlen, length_runQuery. simpl. by rewrite filter_expiredQuery.
    + intros Hfew id d t Hget Hexp Hlt. apply (Hcompl) with (doc := d).
      * simpl. intros n [= <-]. by rewrite filter_expiredQuery.
      * exact Hget.
      * rewrite matches_expiredQuery. unfold expiredAt. rewrite Hexp.
        by apply Z.ltb_lt.
    + intros id d Hget Hexp p Hp Hid.
      destruct (Hsound' p Hp) as (d' & Hget' & _ & Hexp' & Hlt).
      rewrite Hid, Hget in Hget'. injection Hget' as <-.
      rewrite Hexp in Hexp'. injection Hexp' as Heq. lia.
  - intros Hh Hread.
    destruct (rpc_healthy _ _ Hh) as (w1 & -> & _ & Hdb & _).
    destruct (listing_total "list_expired" (expiredQuery s (clock w)) (db w1))
      as [pokes Hdec].
    + rewrite Hdb, filter_expiredQuery. exact Hread.
    + exists pokes, w1. by rewrite Hdec.
Qed.

Lemma ListExpired_strictly_before_now_witness :
  (ListExpired sampleStore (worldWith staleDb 500 [])).1
    = Ok [stalePoke; overduePoke]
  ∧ ∃ p, p ∈ [stalePoke; overduePoke] ∧ Poke_ID p = "d".
Proof.
  split; [vm_compute; reflexivity|].
  eapply (proj1 (proj2 (proj2
           (proj1 (ListExpired_strictly_before_now sampleStore
                     (worldWith staleDb 500 []))
                  [stalePoke; overduePoke] (worldWith staleDb 500 []) _)))).
  - vm_compute. lia.
  - vm_compute. reflexivity.
  - vm_compute. reflexivity.
  - vm_compute. reflexivity.
  Unshelve. vm_compute. reflexivity.
Defined.

Lemma ListExpired_db (s : firePokeStore) (w : World) :
  db (ListExpired s w).2 = db w.
Proof.
  rewrite ListExpired_unfold. pose proof (rpc_db w) as Hdb.
  destruct (rpc w) as [[e|] w1]; exact Hdb.
Qed.

(** A listing never returns a poke under an id that is not stored. *)
Lemma ListToSend_stored (s : firePokeStore) (w w' : World) (pokes : list Poke) (p : Poke) :
  ListToSend s w = (Ok pokes, w') → p ∈ pokes →
  is_Some (db w !! Doc_ (pokeCol s) (Poke_ID p)).
Proof.
  rewrite ListToSend_unfold. pose proof (rpc_db w) as Hdb.
  destruct (rpc w) as [[e|] w1]; simpl in Hdb; [intros [= ]|].
  rewrite Hdb. intros [= Hdec <-] Hp.
  apply listing_spec in Hdec as (_ & Hsound & _).
  destruct (Hsound p Hp) as (d & Hget & _). by exists d.
Qed.

Lemma ListExpired_stored (s : firePokeStore) (w w' : World) (pokes : list Poke) (p : Poke) :
  ListExpired s w = (Ok pokes, w') → p ∈ pokes →
  ∃ d, db w !! Doc_ (pokeCol s) (Poke_ID p) = Some d
       ∧ DataTo_Poke d = Ok (Poke_setID "" p)
       ∧ (Poke_Expiry p < clock w)%Z.
Proof.
  rewrite ListExpired_unfold. pose proof (rpc_db w) as Hdb.
  destruct (rpc w) as [[e|] w1]; simpl in Hdb; [intros [= ]|].
  rewrite Hdb. intros [= Hdec <-] Hp.
  apply listing_spec in Hdec as (_ & Hsound & _).
  destruct (Hsound p Hp) as (d & Hget & Hm & Hdec).
  rewrite matches_expiredQuery in Hm.
  destruct (DataTo_Poke_Expiry _ _ _ Hdec Hm) as [_ Hlt].
  exists d. by destruct p.
Qed.

(** ** How the operations compose *)

(** X8: a poke that [ListExpired] returned and that is archived at the
    same instant or later is archived as expired: listing and archiving
    agree, both comparing the stored expiry strictly with the clock. *)
Theorem listed_expired_archives_as_expired
    (s : firePokeStore) (w w1 w2 : World) (pokes : list Poke) (p : Poke)
    (t : Time) (a : ArchivedPoke) :
  ListExpired s w = (Ok pokes, w1) →
  p ∈ pokes →
  (clock w ≤ t)%Z →
  Archive s (Poke_ID p) (set_clock t w1) = (Ok a, w2) →
  Arc_Expired a = true
  ∧ Arc_Tunnel a = Poke_Tunnel p ∧ Arc_To a = Poke_To p.
Proof.
  intros Hlist Hp Hle Hrun.
  destruct (ListExpired_stored _ _ _ _ _ Hlist Hp) as (d & Hget & Hdec & Hlt).
  pose proof (ListExpired_db s w) as Hdb. rewrite Hlist in Hdb. simpl in Hdb.
  destruct (Archive_outcome s (Poke_ID p) (set_clock t w1))
    as [(d' & p' & w' & Hget' & Hdec' & Hrun' & _)|(e & w' & Hrun' & _)];
    rewrite Hrun in Hrun'; [|discriminate].
  simpl in Hget'. rewrite Hdb, Hget in Hget'. injection Hget' as <-.
  rewrite Hdec in Hdec'. injection Hdec' as <-.
  injection Hrun' as -> _. simpl. unfold After.
  split; [apply Z.ltb_lt; destruct p; simpl in *; lia|by destruct p].
Qed.

Lemma listed_expired_archives_as_expired_witness :
  Arc_Expired (mkArchivedPoke "" "sms" "+4" true) = true
  ∧ Arc_Tunnel (mkArchivedPoke "" "sms" "+4" true) = Poke_Tunnel stalePoke
  ∧ Arc_To (mkArchivedPoke "" "sms" "+4" true) = Poke_To stalePoke.
Proof.
  eapply (listed_expired_archives_as_expired sampleStore
            (worldWith staleDb 500 []) (worldWith staleDb 500 []) _
            [stalePoke; overduePoke] stalePoke 500).
  - vm_compute. reflexivity.
  - apply (bool_decide_unpack _). vm_compute. exact I.
  - simpl. lia.
  - vm_compute. reflexivity.
Defined.

(** X9: once [Archive] has succeeded the poke is out of the queue.
    Whatever happens to the clock and the backend afterwards, as long as the
    documents stay as [Archive] left them: a [Get] that asks for the id
    fails as a whole, neither listing returns a poke of that id, and a
    second [Archive] of the id fails and changes nothing. *)
Theorem Archive_retires_the_poke
    (s : firePokeStore) (id : string) (w w1 : World) (a : ArchivedPoke) :
  Archive s id w = (Ok a, w1) →
  ∀ w2, db w2 = db w1 →
    (∀ IDs, id ∈ IDs →
            ∃ e wh w3, Get s IDs w2 = (Err (firePokeStoreErr e "get" wh), w3))
    ∧ (∀ pokes w3, ListToSend s w2 = (Ok pokes, w3) →
                   ∀ p, p ∈ pokes → Poke_ID p ≠ id)
    ∧ (∀ pokes w3, ListExpired s w2 = (Ok pokes, w3) →
                   ∀ p, p ∈ pokes → Poke_ID p ≠ id)
    ∧ (∃ e w3, Archive s id w2 = (Err (firePokeStoreErr e "archive" id), w3)
               ∧ db w3 = db w2).
Proof.
  intros Hrun w2 Hdb2.
  assert (db w2 !! Doc_ (pokeCol s) id = None) as Hgone.
  { destruct (Archive_outcome s id w)
      as [(d & p & w' & _ & _ & Hrun' & _ & Hdb)|(e & w' & Hrun' & _)];
      rewrite Hrun in Hrun'; [|discriminate].
    injection Hrun' as _ <-. rewrite Hdb2, Hdb. apply lookup_delete_eq. }
  split; [|split; [|split]].
  - intros IDs Hin. by apply (Get_loop_missing s IDs IDs id).
  - intros pokes w3 Hlist p Hp Hid.
    destruct (ListToSend_stored _ _ _ _ _ Hlist Hp) as [d Hget]. congruence.
  - intros pokes w3 Hlist p Hp Hid.
    destruct (ListExpired_stored _ _ _ _ _ Hlist Hp) as (d & Hget & _).
    congruence.
  - destruct (Archive_outcome s id w2)
      as [(d & p & w' & Hget & _)|Herr]; [congruence|exact Herr].
Qed.

Lemma Archive_retires_the_poke_witness :
  ∃ e w3, Archive sampleStore "p1"
                  (Archive sampleStore "p1" (worldWith sampleDb 500 [])).2
          = (Err (firePokeStoreErr e "archive" "p1"), w3)
          ∧ db w3 = db (Archive sampleStore "p1" (worldWith sampleDb 500 [])).2.
Proof.
  eapply (proj2 (proj2 (proj2
            (Archive_retires_the_poke sampleStore "p1"
               (worldWith sampleDb 500 [])
               (Archive sampleStore "p1" (worldWith sampleDb 500 [])).2
               (mkArchivedPoke "" "sms" "+15551234567" true) _
               (Archive sampleStore "p1" (worldWith sampleDb 500 [])).2
               eq_refl)))).
  Unshelve. vm_compute. reflexivity.
Defined.

(** X10: [Archive] never overwrites an archived document. If a document of
    the id is already in the archive collection the call fails and both
    collections stay as they were, the poke still in the queue; when the
    backend answers and the poke is stored and readable the cause is
    AlreadyExists. In particular a store built with one and the same
    collection for pokes and archive can never archive anything. *)
Theorem Archive_refuses_archived_id (s : firePokeStore) (id : string) (w : World) :
  let pokeRef := Doc_ (pokeCol s) id in
  let arcRef := Doc_ (archiveCol s) id in
  (is_Some (db w !! arcRef) →
   (∃ e w', Archive s id w = (Err (firePokeStoreErr e "archive" id), w')
            ∧ db w' = db w)
   ∧ (∀ d p, db w !! pokeRef = Some d → DataTo_Poke d = Ok p → healthy 3 w →
             ∃ w', Archive s id w =
                     (Err (firePokeStoreErr (alreadyExists arcRef) "archive" id),
                      w')))
  ∧ (pokeCol s = archiveCol s →
     ∃ e w', Archive s id w = (Err (firePokeStoreErr e "archive" id), w')
             ∧ db w' = db w).
Proof.
  intros pokeRef arcRef.
  pose proof (Archive_outcome s id w) as Hout. simpl in Hout.
  fold pokeRef arcRef in Hout. split.
  - intros [x Htaken]. split.
    + destruct Hout as [(d & p & w' & _ & _ & _ & Hfree & _)|Herr];
        [congruence|exact Herr].
    + intros d p Hget Hdec Hh.
      unfold Archive, RunTransaction, DefaultTransactionMaxAttempts. simpl.
      destruct (rpc_healthy _ _ Hh) as (w1 & Hrpc & Hh1 & Hdb1 & _).
      destruct (rpc_healthy _ _ Hh1) as (w2 & Hrpc1 & Hh2 & Hdb2 & _).
      destruct (rpc_healthy _ _ Hh2) as (w3 & Hrpc2 & _ & Hdb3 & _).
      rewrite Hrpc.
      unfold Archive_tx, mbind, M_bind, bind, tx_Get. simpl.
      fold pokeRef arcRef.
      rewrite Hrpc1, Hdb2, Hdb1, Hget. simpl.
      unfold lift. rewrite Hdec. simpl.
      unfold Commit. rewrite Hrpc2, Hdb3, Hdb2, Hdb1. simpl.
      rewrite Htaken. simpl. by eexists.
  - intros Hsame.
    destruct Hout as [(d & p & w' & Hget & _ & _ & Hfree & _)|Herr];
      [|exact Herr].
    unfold pokeRef, arcRef in *. rewrite Hsame in Hget. congruence.
Qed.

(** ** Records *)






Lemma matches_recordQuery (s : firePokeStore) (mid : string) (d : Doc) :
  matches (recordQuery s mid) d = recordOf mid d.
Proof.
  unfold matches, recordOf, recordQuery. simpl.
  destruct (d !! "message_id") as [v|]; simpl.
  - apply bool_decide_ext. split; [by intros ->|by intros [= ->]].
  - reflexivity.
Qed.


Lemma GetRecord_unfold (s : firePokeStore) (mid : string) (w : World) :
  GetRecord s mid w =
    match rpc w with
    | (Some e, w1) => (Err (firePokeStoreErr e "GetRecord" mid), w1)
    | (None, w1) => (decodeRecords (runQuery (recordQuery s mid) (db w1)) [], w1)
    end.
Proof.
  unfold GetRecord, GetAll, recordQuery.
  destruct (rpc w) as [[e|] w1]; reflexivity.
Qed.








(** ** Reads: no change, and errors that say where *)

Lemma Get_loop_err (s : firePokeStore) (IDs rest : list string) :
  ∀ acc w e w',
    Get_loop s IDs rest acc w = (Err e, w') →
    (∃ cause, e = firePokeStoreErr cause "get" (Join IDs ","))
    ∨ (∃ id d cause, id ∈ rest ∧ db w !! Doc_ (pokeCol s) id = Some d
                     ∧ DataTo_Poke d = Err cause
                     ∧ e = firePokeStoreErr cause "get" ("marshaling " +:+ id)).
Proof.
  induction rest as [|id rest IH]; intros acc w e w'; simpl; [intros [= ]|].
  unfold DocumentRef_Get. pose proof (rpc_db w) as Hdb.
  destruct (rpc w) as [[e0|] w1]; simpl in *.
  { intros [= <- <-]. left. by eexists. }
  rewrite Hdb.
  destruct (db w !! Doc_ (pokeCol s) id) as [d|] eqn:Hget; simpl.
  - destruct (DataTo_Poke d) as [p0|e0] eqn:Hdec; simpl.
    + intros Hrest. apply IH in Hrest as [Hl|(i & d' & c & Hin & Hd' & Hc & ->)];
        [by left|right].
      exists i, d', c. split; [by apply elem_of_cons; right|].
      split; [congruence|done].
    + intros [= <- <-]. right. exists id, d, e0.
      split; [by apply elem_of_cons; left|done].
  - intros [= <- <-]. left. by eexists.
Qed.

Lemma decodePokes_err (errFunc : string) (docs : list DocumentSnapshot) :
  ∀ acc e,
    decodePokes errFunc docs acc = Err e →
    ∃ doc cause, doc ∈ docs ∧ DataTo_Poke (fields doc) = Err cause
                 ∧ e = firePokeStoreErr cause errFunc (Ref doc).2.
Proof.
  induction docs as [|doc rest IH]; intros acc e; simpl; [intros [= ]|].
  destruct (DataTo_Poke (fields doc)) as [p0|e0] eqn:Hdec.
  - intros (d & c & Hin & Hrest)%IH. exists d, c.
    split; [by apply elem_of_cons; right|exact Hrest].
  - intros [= <-]. exists doc, e0. split; [by apply elem_of_cons; left|done].
Qed.

Lemma decodeRecords_err (docs : list DocumentSnapshot) :
  ∀ acc e,
    decodeRecords docs acc = Err e →
    ∃ doc cause, doc ∈ docs ∧ DataTo_Record (fields doc) = Err cause
                 ∧ e = firePokeStoreErr cause "GetRecord"
                         ("unmarshal message ID = " +:+ (Ref doc).2).
Proof.
  induction docs as [|doc rest IH]; intros acc e; simpl; [intros [= ]|].
  destruct (DataTo_Record (fields doc)) as [r0|e0] eqn:Hdec.
  - intros (d & c & Hin & Hrest)%IH. exists d, c.
    split; [by apply elem_of_cons; right|exact Hrest].
  - intros [= <-]. exists doc, e0. split; [by apply elem_of_cons; left|done].
Qed.

(** X13: the four reading operations never change the database, also when
    they fail, and each of their errors is a store error carrying the
    operation's name and the underlying cause. [Get] names all the ids
    asked for when a document cannot be fetched and "marshaling <id>" when
    a stored document cannot be read as a poke; the listings name the id of
    the unreadable document, and nothing when the query itself fails;
    [GetRecord] names the message when the query fails and the unreadable
    document otherwise. One unreadable document fails the whole call. *)
Theorem reads_change_nothing_and_say_where (s : firePokeStore) (w : World) :
  (∀ IDs, db (Get s IDs w).2 = db w
          ∧ ∀ e, (Get s IDs w).1 = Err e →
                 (∃ cause, e = firePokeStoreErr cause "get" (Join IDs ","))
                 ∨ (∃ id d cause,
                       id ∈ IDs ∧ db w !! Doc_ (pokeCol s) id = Some d
                       ∧ DataTo_Poke d = Err cause
                       ∧ e = firePokeStoreErr cause "get" ("marshaling " +:+ id)))
  ∧ (db (ListToSend s w).2 = db w
     ∧ ∀ e, (ListToSend s w).1 = Err e →
            (∃ cause, e = firePokeStoreErr cause "list_to_send" "")
            ∨ (∃ id d cause,
                  db w !! Doc_ (pokeCol s) id = Some d
                  ∧ dueAt (clock w) d = true ∧ DataTo_Poke d = Err cause
                  ∧ e = firePokeStoreErr cause "list_to_send" id))
  ∧ (db (ListExpired s w).2 = db w
     ∧ ∀ e, (ListExpired s w).1 = Err e →
            (∃ cause, e = firePokeStoreErr cause "list_expired" "")
            ∨ (∃ id d cause,
                  db w !! Doc_ (pokeCol s) id = Some d
                  ∧ expiredAt (clock w) d = true ∧ DataTo_Poke d = Err cause
                  ∧ e = firePokeStoreErr cause "list_expired" id))
  ∧ (∀ mid, db (GetRecord s mid w).2 = db w
            ∧ ∀ e, (GetRecord s mid w).1 = Err e →
                   (∃ cause, e = firePokeStoreErr cause "GetRecord" mid)
                   ∨ (∃ id d cause,
                         db w !! Doc_ (recCol s) id = Some d
                         ∧ d !! "message_id" = Some (VString mid)
                         ∧ DataTo_Record d = Err cause
                         ∧ e = firePokeStoreErr cause "GetRecord"
                                 ("unmarshal message ID = " +:+ id))).
Proof.
  split; [|split; [|split]].
  - intros IDs. split; [apply Get_loop_db|]. intros e. unfold Get.
    destruct (Get_loop s IDs IDs [] w) as [r w'] eqn:Hrun. simpl. intros ->.
    by apply Get_loop_err in Hrun.
  - split; [apply ListToSend_db|]. intros e. rewrite ListToSend_unfold.
    pose proof (rpc_db w) as Hdb.
    destruct (rpc w) as [[e0|] w1]; simpl in *.
    { intros [= <-]. left. by eexists. }
    rewrite Hdb.
    intros (doc & c & [Hget [Hcol Hm]]%elem_of_runQuery & Hdec & ->)%decodePokes_err.
    right. rewrite matches_toSendQuery in Hm.
    destruct doc as [[col id] d]. simpl in *. subst col.
    by exists id, d, c.
  - split; [apply ListExpired_db|]. intros e. rewrite ListExpired_unfold.
    pose proof (rpc_db w) as Hdb.
    destruct (rpc w) as [[e0|] w1]; simpl in *.
    { intros [= <-]. left. by eexists. }
    rewrite Hdb.
    intros (doc & c & [Hget [Hcol Hm]]%elem_of_runQuery & Hdec & ->)%decodePokes_err.
    right. rewrite matches_expiredQuery in Hm.
    destruct doc as [[col id] d]. simpl in *. subst col.
    by exists id, d, c.
  - intros mid. rewrite GetRecord_unfold. pose proof (rpc_db w) as Hdb.
    destruct (rpc w) as [[e0|] w1]; simpl in *.
    { split; [exact Hdb|]. intros e [= <-]. left. by eexists. }
    split; [exact Hdb|]. intros e. rewrite Hdb.
    intros (doc & c & [Hget [Hcol Hm]]%elem_of_runQuery & Hdec & ->)%decodeRecords_err.
    right. rewrite matches_recordQuery in Hm.
    apply bool_decide_eq_true in Hm.
    destruct doc as [[col id] d]. simpl in *. subst col.
    by exists id, d, c.
Qed.

(** ** The tunnels *)

Lemma SMSTunnel_Send_recID (t : SMSTunnel) (p : Poke) (w : World) :
  Rec_ID (SMSTunnel_Send t p w).1.1 = "".
Proof.
  unfold SMSTunnel_Send.
  destruct (SendSMS _ _ _ _ _ _) as [err|ex|resp]; simpl; try reflexivity.
  destruct (sms_DateUpdateAsTime resp); reflexivity.
Qed.

(** X14: the SMS and the Email tunnel are stateless towards the store and
    the process: a [Send] leaves the world as it was (no document, no id, no
    line on standard error), and whatever the outcome the record it returns
    carries the poke's id as message id and no id of its own. *)
Theorem Send_only_reports :
  (∀ (t : SMSTunnel) (p : Poke) (w : World),
      (SMSTunnel_Send t p w).2 = w
      ∧ Rec_MessageID (SMSTunnel_Send t p w).1.1 = Poke_ID p
      ∧ Rec_ID (SMSTunnel_Send t p w).1.1 = "")
  ∧ (∀ Email_Bytes EncodeToString (t : GMailTunnel) (p : Poke) (w : World),
      (GMailTunnel_Send Email_Bytes EncodeToString t p w).2 = w
      ∧ Rec_MessageID (GMailTunnel_Send Email_Bytes EncodeToString t p w).1.1
        = Poke_ID p
      ∧ Rec_ID (GMailTunnel_Send Email_Bytes EncodeToString t p w).1.1 = "").
Proof.
  split.
  - intros t p w. split; [apply SMSTunnel_Send_world|].
    split; [apply SMSTunnel_Send_messageID|apply SMSTunnel_Send_recID].
  - intros EB ES t p w. split; [apply GMailTunnel_Send_world|].
    unfold GMailTunnel_Send.
    destruct (EB _ _ _) as [rawBs|err]; simpl; [|done].
    destruct (gm_svc t) as [svc|]; simpl; [|done].
    destruct (gm_Send svc _ _) as [err|]; simpl; [|done].
    destruct err; done.
Qed.

(** X15: the Email tunnel's [Send] returns a nil error exactly when the
    status of its record is [StatusDelivered]; the record's timestamp is
    always the clock reading. A message that cannot be composed, or a
    tunnel without a service, gives [StatusError]; an error of the provider
    gives [StatusUndelivered], with the provider's message rewrapped as
    "gmail error: ..." when it is an API error and the error passed on as it
    is otherwise. *)
Theorem GMailTunnel_Send_outcomes
    (Email_Bytes : string → string → string → result string)
    (EncodeToString : string → string)
    (t : GMailTunnel) (p : Poke) (w : World) :
  let sent := GMailTunnel_Send Email_Bytes EncodeToString t p w in
  (sent.1.2 = None ↔ Rec_Status sent.1.1 = StatusDelivered)
  ∧ Rec_TimeStamp sent.1.1 = clock w
  ∧ match Email_Bytes (Poke_To p) (Poke_Subject p) (Poke_Body p) with
    | Err err => Rec_Status sent.1.1 = StatusError ∧ sent.1.2 = Some err
    | Ok rawBs =>
        match gm_svc t with
        | None => Rec_Status sent.1.1 = StatusError ∧ sent.1.2 ≠ None
        | Some svc =>
            match gm_Send svc (gm_email t) (EncodeToString rawBs) with
            | None => Rec_Status sent.1.1 = StatusDelivered
            | Some (ApiError message) =>
                Rec_Status sent.1.1 = StatusUndelivered
                ∧ sent.1.2 = Some (Errorf ("gmail error: " +:+ message))
            | Some err =>
                Rec_Status sent.1.1 = StatusUndelivered ∧ sent.1.2 = Some err
            end
        end
    end.
Proof.
  intros sent. subst sent. unfold GMailTunnel_Send.
  destruct (Email_Bytes _ _ _) as [rawBs|err]; simpl.
  2: { split; [split; discriminate|done]. }
  destruct (gm_svc t) as [svc|]; simpl.
  2: { split; [split; discriminate|done]. }
  destruct (gm_Send svc _ _) as [err|]; simpl.
  2: { split; [split; done|done]. }
  destruct err; simpl; (split; [split; discriminate|done]).
Qed.

(** ** The logging wrapper, step by step *)

Section LogWrapperMore.
Context {T : Type} `{Tunnel T}.
Variables (t : LogWrapper T) (p : Poke).
Hypothesis inert : ∀ q w0, (Send (lw_t t) q w0).2 = w0.



End LogWrapperMore.

(** X16: when the wrapper's transaction cannot even begin, the wrapped
    tunnel is not asked to send. The call returns the backend's error as it
    is, with a record that has the poke's id as message id and nothing else
    (empty status, zero timestamp); no document is written, no id is used,
    nothing is printed. *)
Theorem LogWrapper_Send_cannot_begin
    {T : Type} `{Tunnel T} (t : LogWrapper T) (p : Poke) (w : World)
    (e : error) (fs : list (option error)) :
  faults w = Some e :: fs →
  LogWrapper_Send t p w =
    ((mkRecord (Poke_ID p) "" "" zeroTime, Some e), set_faults fs w).
Proof.
  intros Hf. unfold LogWrapper_Send, RunTransaction, DefaultTransactionMaxAttempts.
  rewrite runAttempts_S. unfold rpc. rewrite Hf. reflexivity.
Qed.

Lemma LogWrapper_Send_cannot_begin_witness :
  LogWrapper_Send (sampleLog (acceptingTwilio "delivered" (Ok 7%Z))) samplePoke
                  (faultyWorld 500 [Some unavailable])
  = ((mkRecord "p1" "" "" zeroTime, Some unavailable),
     set_faults [] (faultyWorld 500 [Some unavailable])).
Proof.
  apply (LogWrapper_Send_cannot_begin
           (sampleLog (acceptingTwilio "delivered" (Ok 7%Z))) samplePoke
           (faultyWorld 500 [Some unavailable]) unavailable []).
  reflexivity.
Defined.

Lemma SMSTunnel_Send_clock (t : SMSTunnel) (p : Poke) (w w' : World) :
  clock w = clock w' → (SMSTunnel_Send t p w).1 = (SMSTunnel_Send t p w').1.
Proof.
  intros Hc. unfold SMSTunnel_Send, time_Now. rewrite Hc.
  destruct (SendSMS _ _ _ _ _ _) as [err|ex|resp]; simpl; try reflexivity.
  destruct (sms_DateUpdateAsTime resp); reflexivity.
Qed.

Lemma SMSTunnel_Send_at (t : SMSTunnel) (p : Poke) (w w' : World) :
  clock w' = clock w →
  Send t p w' = ((SMSTunnel_Send t p w).1, w').
Proof.
  intros Hc. simpl. rewrite <- (SMSTunnel_Send_clock t p w' w Hc).
  rewrite <- (SMSTunnel_Send_world t p w') at 3.
  by destruct (SMSTunnel_Send t p w').
Qed.

(** One attempt of the wrapper over the SMS tunnel that begins without a
    fault: what it leaves behind, by the outcome [cf] of its commit. *)
Lemma LogWrapper_SMS_attempt (t : LogWrapper SMSTunnel) (p : Poke) (n : nat)
    (last : option error) (l : Record_) (w : World)
    (cf : option error) (fs : list (option error)) :
  faults w = None :: cf :: fs →
  let sent := (SMSTunnel_Send (lw_t t) p w).1 in
  let ref := Doc_ "service/notify/record" (idgen w (idctr w)) in
  let w4 := mkWorld (db w) fs (clock w) (idgen w) (S (idctr w))
                    (stderr w ++ match sent.2 with
                                 | Some err => [Error err]
                                 | None => []
                                 end) in
  runAttempts (S n) (LogWrapper_Send_tx t p) last l w =
    match cf with
    | Some ce =>
        if hasCode Aborted ce
        then runAttempts n (LogWrapper_Send_tx t p) (Some ce) sent.1 w4
        else (Some ce, sent.1, w4)
    | None =>
        match db w !! ref with
        | Some _ => (Some (alreadyExists ref), sent.1, w4)
        | None => (None, sent.1, set_db (<[ref := Record_toDoc sent.1]> (db w)) w4)
        end
    end.
Proof.
  intros Hf. cbv zeta. rewrite runAttempts_S. unfold rpc at 1. rewrite Hf.
  rewrite LogWrapper_Send_tx_run. cbv zeta.
  rewrite (SMSTunnel_Send_at (lw_t t) p w) by reflexivity.
  destruct (SMSTunnel_Send (lw_t t) p w).1 as [r e].
  cbn [fst snd tx_writes tx_world tx_locals app].
  unfold Commit, rpc, NewDoc.
  destruct e as [err|], cf as [ce|];
    unfold set_faults, set_idctr, set_db, Fprintf_Stderr, set_stderr; simpl;
    rewrite ?app_nil_r;
    try (destruct (hasCode Aborted ce); reflexivity);
    destruct (db w !! _); reflexivity.
Qed.

(** X17: a commit that the backend aborts makes the wrapper send again.
    With the first commit aborted and the second attempt unhindered, the
    wrapped SMS tunnel's [Send] has run twice by the time the call returns:
    its error, if any, stands twice on standard error, two document ids are
    used up, and one record is stored, under the second id; the caller gets
    that record and a nil error. *)
Theorem LogWrapper_Send_sends_again_after_abort
    (t : LogWrapper SMSTunnel) (p : Poke) (w : World)
    (ce : error) (fs : list (option error)) :
  faults w = None :: Some ce :: None :: None :: fs →
  hasCode Aborted ce = true →
  db w !! Doc_ "service/notify/record" (idgen w (S (idctr w))) = None →
  let sent := (SMSTunnel_Send (lw_t t) p w).1 in
  let out := LogWrapper_Send t p w in
  out.1 = (sent.1, None)
  ∧ idctr out.2 = S (S (idctr w))
  ∧ stderr out.2 = stderr w ++ match sent.2 with
                               | Some err => [Error err; Error err]
                               | None => []
                               end
  ∧ db out.2 = <[Doc_ "service/notify/record" (idgen w (S (idctr w)))
                 := Record_toDoc sent.1]> (db w)
  ∧ faults out.2 = fs.
Proof.
  intros Hf Hab Hfree. cbv zeta.
  unfold LogWrapper_Send, RunTransaction, DefaultTransactionMaxAttempts.
  rewrite (LogWrapper_SMS_attempt t p 4 None _ w _ _ Hf). cbv zeta.
  rewrite Hab.
  match goal with
  | |- context [runAttempts 4 _ _ _ ?w4] =>
      rewrite (LogWrapper_SMS_attempt t p 3 _ _ w4 None fs eq_refl);
      rewrite (SMSTunnel_Send_clock (lw_t t) p w4 w eq_refl)
  end.
  cbv zeta. cbn [db idgen idctr clock stderr]. rewrite Hfree.
  destruct (SMSTunnel_Send (lw_t t) p w).1 as [r [err|]]; simpl;
    repeat split; by rewrite <- app_assoc.
Qed.

Lemma LogWrapper_Send_sends_again_after_abort_witness :
  stderr (LogWrapper_Send (sampleLog (rejectingTwilio "info")) samplePoke
            (faultyWorld 500 [None; Some aborted; None; None])).2
  = [] ++ [Error (twilioException (mkException 400 "bad" 21211 "info"));
           Error (twilioException (mkException 400 "bad" 21211 "info"))].
Proof.
  exact (proj1 (proj2 (proj2
           (LogWrapper_Send_sends_again_after_abort
              (sampleLog (rejectingTwilio "info")) samplePoke
              (faultyWorld 500 [None; Some aborted; None; None])
              aborted [] eq_refl eq_refl eq_refl)))).
Defined.




(** ** More compositions *)

(** X19: a deleted poke is cancelled without trace. After a successful
    [Delete], for every listed id and as long as the documents stay as
    [Delete] left them: [Get] of the id fails, [Archive] of the id fails and
    changes nothing, so no archived copy ever appears for it; and [Delete]
    itself has not touched any document outside the poke collection. *)
Theorem Delete_cancels_without_archiving
    (s : firePokeStore) (IDs : list string) (w w1 : World) (id : string) :
  Delete s IDs w = (None, w1) →
  id ∈ IDs →
  (∀ r, r.1 ≠ pokeCol s → db w1 !! r = db w !! r)
  ∧ ∀ w2, db w2 = db w1 →
      (∃ e wh w3, Get s [id] w2 = (Err (firePokeStoreErr e "get" wh), w3))
      ∧ (∃ e w3, Archive s id w2 = (Err (firePokeStoreErr e "archive" id), w3)
                 ∧ db w3 = db w2).
Proof.
  intros Hrun Hin. unfold Delete in Hrun.
  destruct (RunTransaction _ () w) as [[[e|] u] w'] eqn:Htx; [discriminate|].
  injection Hrun as ->.
  destruct (deleteAll_transaction (pokeCol s) IDs w) as (Hok & _ & _).
  specialize (Hok u w1 Htx). split.
  - intros r Hne. rewrite Hok. rewrite decide_False; [done|]. by intros [Hc _].
  - intros w2 Hdb2.
    assert (db w2 !! Doc_ (pokeCol s) id = None) as Hgone.
    { rewrite Hdb2, Hok. by rewrite decide_True. }
    split.
    + apply (Get_loop_missing s [id] [id] id); [|exact Hgone].
      by apply elem_of_cons; left.
    + destruct (Archive_outcome s id w2)
        as [(d & p & w3 & Hget & _)|Herr]; [congruence|exact Herr].
Qed.

Lemma Delete_cancels_without_archiving_witness :
  ∃ e w3, Archive sampleStore "p1"
                  (Delete sampleStore ["p1"] (worldWith sampleDb 500 [])).2
          = (Err (firePokeStoreErr e "archive" "p1"), w3)
          ∧ db w3 = db (Delete sampleStore ["p1"] (worldWith sampleDb 500 [])).2.
Proof.
  refine (proj2 (proj2
            (Delete_cancels_without_archiving sampleStore ["p1"]
               (worldWith sampleDb 500 [])
               (Delete sampleStore ["p1"] (worldWith sampleDb 500 [])).2 "p1"
               _ _)
            (Delete sampleStore ["p1"] (worldWith sampleDb 500 [])).2 eq_refl)).
  - vm_compute. reflexivity.
  - apply (bool_decide_unpack _). vm_compute. exact I.
Defined.



(** X21: what [Archive] keeps of a poke. The archived poke it returns has
    the tunnel and the recipient of the stored poke; the archived document
    holds these two and the expired flag and nothing else, so subject, body
    and both dates are gone with the poke; and no document other than the
    poke and its archived copy is touched. *)
Theorem Archive_keeps_tunnel_and_recipient
    (s : firePokeStore) (id : string) (w w' : World) (a : ArchivedPoke) :
  Archive s id w = (Ok a, w') →
  (∃ d p, db w !! Doc_ (pokeCol s) id = Some d ∧ DataTo_Poke d = Ok p
          ∧ Arc_Tunnel a = Poke_Tunnel p ∧ Arc_To a = Poke_To p
          ∧ db w' !! Doc_ (archiveCol s) id
            = Some (<["tunnel" := VString (Poke_Tunnel p)]>
                    (<["to" := VString (Poke_To p)]>
                    (<["expired" := VBool (Arc_Expired a)]> ∅))))
  ∧ (∀ r, r ≠ Doc_ (pokeCol s) id → r ≠ Doc_ (archiveCol s) id →
          db w' !! r = db w !! r).
Proof.
  intros Hrun.
  destruct (Archive_outcome s id w)
    as [(d & p & w2 & Hget & Hdec & Hrun' & Hfree & Hdb)|(e & w2 & Hrun' & _)];
    rewrite Hrun in Hrun'; [|discriminate].
  injection Hrun' as -> ->.
  assert (Doc_ (pokeCol s) id ≠ Doc_ (archiveCol s) id) as Hne
    by (intros Heq; congruence).
  split.
  - exists d, p. repeat split; try done.
    rewrite Hdb, lookup_delete_ne by done. by rewrite lookup_insert_eq.
  - intros r Hr1 Hr2. rewrite Hdb, lookup_delete_ne by done.
    by rewrite lookup_insert_ne.
Qed.

Lemma Archive_keeps_tunnel_and_recipient_witness :
  ∃ d p, db (worldWith sampleDb 500 []) !! Doc_ "pokes" "p1" = Some d
         ∧ DataTo_Poke d = Ok p
         ∧ "sms" = Poke_Tunnel p ∧ "+15551234567" = Poke_To p
         ∧ db (Archive sampleStore "p1" (worldWith sampleDb 500 [])).2
             !! Doc_ "archive" "p1"
           = Some (<["tunnel" := VString (Poke_Tunnel p)]>
                   (<["to" := VString (Poke_To p)]>
                   (<["expired" := VBool true]> ∅))).
Proof.
  refine (proj1 (Archive_keeps_tunnel_and_recipient sampleStore "p1"
                   (worldWith sampleDb 500 [])
                   (Archive sampleStore "p1" (worldWith sampleDb 500 [])).2
                   (mkArchivedPoke "" "sms" "+15551234567" true) _)).
  vm_compute. reflexivity.
Defined.
